(** * zenfeed-web: read-state synchronisation store and item identity

    A shallow embedding of [src/lib/stores/readStateStore.ts] and of
    [getFeedItemId] (feedUtils), with the properties of the read-state
    engine stated over it.

    Conventions of the embedding.
    - JavaScript values that reach the store through [JSON.parse] are a
      small inductive type [Value]; numbers are integers ([Z]): the only
      numbers the store itself produces are [Date.now()] readings.
    - A JS [Map] is the list of its entries in insertion order, a JS [Set]
      the list of its members in insertion order, [localStorage] a finite
      map from keys to strings.
    - [Date.now()] is an explicit argument; an [await] on the backend is an
      oracle that tells how the promise settles and at what time.
    - Operations that can throw return [option] ([None] is the throw). *)

From Stdlib Require Import ZArith String Ascii Decimal DecimalString DecimalZ.
From stdpp Require Import base tactics option list gmap strings sorting.

Set Warnings "-register-all".
Local Open Scope Z_scope.
Local Open Scope string_scope.

(** ** JavaScript values and the platform functions the sources call *)

Inductive Value : Type :=
| Undefined
| Null
| Bool (b : bool)
| Num (n : Z)
| Str (s : string)
| Arr (elems : list Value)
| Obj (fields : list (string * Value)).

(** [SameValueZero], the key equality of [Map]. Arrays and objects are
    compared by reference: two values that come out of [JSON.parse] are never
    the same object, and none is the same as a string. *)
Definition same_value_zero (a b : Value) : bool :=
  match a, b with
  | Undefined, Undefined => true
  | Null, Null => true
  | Bool x, Bool y => bool_decide (x = y)
  | Num x, Num y => bool_decide (x = y)
  | Str x, Str y => bool_decide (x = y)
  | _, _ => false
  end.

(** [Number.prototype.toString()] on an integer: its decimal numeral. The
    integers of the model stand for the integer-valued numbers the sources
    handle, [Date.now()] readings, backend ids and hash values, which
    JavaScript prints this way (below 1e21, and exactly up to 2^53). *)
Definition Number_toString (n : Z) : string :=
  NilZero.string_of_int (Z.to_int n).

(** [Number(s)] on a string; [None] is [NaN]. The model is exact on decimal
    integer numerals, the strings [updateSyncTimestamp] writes. Every other
    string is taken to [NaN]: that is JavaScript's answer for text that is no
    numeric literal, while literals of another form (white space around the
    digits, a fraction, an exponent, a radix prefix) are numbers in JavaScript
    and lie outside the model. No property below is about such a text. *)
Definition Number (s : string) : option Z :=
  Z.of_int <$> NilZero.int_of_string s.

(** Truthiness of a string: only the empty string is falsy. *)
Definition truthy (s : string) : bool :=
  match s with EmptyString => false | String _ _ => true end.

(** [Array.prototype.join] on strings. *)
Fixpoint join (sep : string) (parts : list string) : string :=
  match parts with
  | [] => EmptyString
  | [p] => p
  | p :: rest => p ++ sep ++ join sep rest
  end.

(** What the sources import and is not at hand: [JSON.parse] ([None] when it
    throws) and [JSON.stringify] of the platform, and [simpleHash] of
    hashUtils, a function from strings to integers. *)
Class Platform : Type := {
  JSON_parse : string -> option Value;
  JSON_stringify : Value -> string;
  simpleHash : string -> Z
}.

(** ** [Map]: entries in insertion order *)

Module JsMap.

Definition t : Type := list (Value * Value).

Definition empty : t := [].

Fixpoint has (k : Value) (m : t) : bool :=
  match m with
  | [] => false
  | (k', _) :: m' => same_value_zero k' k || has k m'
  end.

Fixpoint get (k : Value) (m : t) : option Value :=
  match m with
  | [] => None
  | (k', v) :: m' => if same_value_zero k' k then Some v else get k m'
  end.

(** [set] overwrites the value of an existing key in place and appends a
    new key at the end. *)
Fixpoint set (k v : Value) (m : t) : t :=
  match m with
  | [] => [(k, v)]
  | (k', v') :: m' =>
      if same_value_zero k' k then (k', v) :: m' else (k', v') :: set k v m'
  end.

(** A map holds a key once; [delete] drops the entry of the key, written
    here so that it needs no such assumption on the list. *)
Fixpoint delete (k : Value) (m : t) : t :=
  match m with
  | [] => []
  | (k', v') :: m' =>
      if same_value_zero k' k then delete k m' else (k', v') :: delete k m'
  end.

(** [new Map(iterable)]: the entries are set one after the other. *)
Definition from_entries (entries : list (Value * Value)) : t :=
  fold_left (fun m kv => set kv.1 kv.2 m) entries empty.

(** No two entries have the same key: the list stands for a [Map]. *)
Fixpoint distinct (m : t) : Prop :=
  match m with
  | [] => True
  | (k, _) :: m' => has k m' = false /\ distinct m'
  end.

(** [Array.from(map.entries())]: an array of two-element arrays. *)
Definition entries (m : t) : Value :=
  Arr ((fun kv => Arr [kv.1; kv.2]) <$> m).

End JsMap.

(** ** feedUtils: item identity *)

(** [FeedLabels]: a JS object with string values, as its own properties in
    the order [Object.keys] lists them. A JS object holds a key once. *)
Definition FeedLabels : Type := list (string * string).

Definition labels_wf (labels : FeedLabels) : Prop := NoDup labels.*1.

(** [id?: string | number]. *)
Inductive FeedId : Type :=
| IdNumber (n : Z)
| IdString (s : string).

Record FeedVO : Type := mkFeedVO {
  feed_id : option FeedId;
  feed_labels : FeedLabels;
  feed_time : string
}.

Definition FeedId_toString (i : FeedId) : string :=
  match i with
  | IdNumber n => Number_toString n
  | IdString s => s
  end.

Definition Object_keys (labels : FeedLabels) : list string := labels.*1.

(** [labels[key]] inside a template literal. *)
Definition label_at (labels : FeedLabels) (key : string) : string :=
  match list_find (fun kv => kv.1 = key) labels with
  | Some (_, (_, v)) => v
  | None => "undefined"
  end.

(** [Array.prototype.sort()] without comparator: ascending by code units. *)
Definition Array_sort (keys : list string) : list string :=
  merge_sort String.le keys.

Section FeedUtils.

Context `{Platform}.

Definition combinedString (labels : FeedLabels) : string :=
  join "&" ((fun key => key ++ "=" ++ label_at labels key)
              <$> Array_sort (Object_keys labels)).

Definition getFeedItemId (feed : FeedVO) : string :=
  match feed_id feed with
  | Some i => FeedId_toString i
  | None => Number_toString (simpleHash (combinedString (feed_labels feed)))
  end.

End FeedUtils.

Section CompareFeeds.

(** [new Date(s)] compared with [<] and [>]: the comparison goes through the
    time value of the date, which is [NaN] ([None]) for an invalid date; and
    [String.prototype.localeCompare]. Both belong to the platform. *)
Context (Date_valueOf : string -> option Z).
Context (localeCompare : string -> string -> Z).

(** [timeA > timeB]; a comparison with [NaN] is false. *)
Definition Date_gt (a b : option Z) : bool :=
  match a, b with
  | Some x, Some y => bool_decide (x > y)
  | _, _ => false
  end.

(** [feed.labels.title || ""]: a missing and an empty title are the same. *)
Definition title_or_empty (feed : FeedVO) : string :=
  match list_find (fun kv => kv.1 = "title") (feed_labels feed) with
  | Some (_, (_, v)) => v
  | None => EmptyString
  end.

(** [compareFeeds]. Neither [new Date] nor the comparisons throw, so the
    [catch] branch, which sorts by title, is not entered on a [FeedVO]. *)
Definition compareFeeds (a b : FeedVO) : Z :=
  let timeA := Date_valueOf (feed_time a) in
  let timeB := Date_valueOf (feed_time b) in
  if Date_gt timeA timeB then -1
  else if Date_gt timeB timeA then 1
  else localeCompare (title_or_empty a) (title_or_empty b).

End CompareFeeds.


(** ** readStateStore: constants, the world around the store, its state *)

Definition READ_ITEMS_STORAGE_KEY : string := "zenfeed_read_feeds".
Definition SYNC_TIMESTAMP_KEY : string := "zenfeed_read_sync_timestamp".
Definition SYNC_INTERVAL : Z := 30 * 60 * 1000.

(** [console.warn] and [console.error]. *)
Inductive Level : Type := Warn | Error.
Definition LogEntry : Type := Level * string.

(** The requests the store sends through [fetch], kept as a trace. *)
Inductive Request : Type :=
| GET (itemId : string)
| POST (itemId : string) (read_status : string).

(** How an awaited backend call settles: it resolves with the [read_status]
    field of the response body, or it rejects ([fetch] fails, the response is
    not ok, the body is no JSON). *)
Inductive Outcome : Type :=
| Resolved (read_status : Value)
| Rejected.

Record Reply : Type := mkReply {
  outcome : Outcome;
  settled_at : Z        (* the clock when the awaiting code resumes *)
}.

(** The backend as the store sees it: what a call for an item, sent at a
    given time, will answer. *)
Record Backend : Type := mkBackend {
  getFeedReadStatus : string -> Z -> Reply;
  updateFeedReadStatus : string -> string -> Z -> Reply
}.

(** The environment: whether [window] and [localStorage] are defined, and
    whether [localStorage.setItem] accepts a write (it throws when the quota
    is exceeded). *)
Record Env : Type := mkEnv {
  has_window : bool;
  has_localStorage : bool;
  storage_accepts : string -> string -> bool
}.

Definition browser (env : Env) : Prop :=
  has_window env = true /\ has_localStorage env = true.

Definition storage_writable (env : Env) : Prop :=
  forall key text, storage_accepts env key text = true.

Record Store : Type := mkStore {
  readItems : JsMap.t;                  (* the value of the writable *)
  syncQueue : list string;              (* the [Set], in insertion order *)
  localStorage : gmap string string;
  console : list LogEntry;
  network : list Request
}.

Definition with_readItems (m : JsMap.t) (st : Store) : Store :=
  mkStore m (syncQueue st) (localStorage st) (console st) (network st).
Definition with_syncQueue (q : list string) (st : Store) : Store :=
  mkStore (readItems st) q (localStorage st) (console st) (network st).
Definition with_localStorage (ls : gmap string string) (st : Store) : Store :=
  mkStore (readItems st) (syncQueue st) ls (console st) (network st).
Definition log (e : LogEntry) (st : Store) : Store :=
  mkStore (readItems st) (syncQueue st) (localStorage st) (console st ++ [e])
          (network st).
Definition send (r : Request) (st : Store) : Store :=
  mkStore (readItems st) (syncQueue st) (localStorage st) (console st)
          (network st ++ [r]).

(** [Set.prototype.add]: a member is held once. *)
Definition Set_add (x : string) (s : list string) : list string :=
  if bool_decide (x ∈ s) then s else s ++ [x].

Definition queue_add (itemId : string) (st : Store) : Store :=
  with_syncQueue (Set_add itemId (syncQueue st)) st.

(** [status === 'read'] and the like: strict equality with a string. *)
Definition is_string (v : Value) (s : string) : bool :=
  same_value_zero v (Str s).

(** [pair => Array.isArray(pair) && pair.length === 2] *)
Definition is_pair (pair : Value) : bool :=
  match pair with
  | Arr [_; _] => true
  | _ => false
  end.

(** [Array.isArray(parsedArray) && parsedArray.every(...)] *)
Definition valid_format (parsedArray : Value) : bool :=
  match parsedArray with
  | Arr elems => forallb is_pair elems
  | _ => false
  end.

(** [e[i]] on an array. *)
Definition index (e : Value) (i : nat) : Value :=
  match e with
  | Arr elems => nth i elems Undefined
  | _ => Undefined
  end.

(** [new Map(parsedArray)] *)
Definition Map_of_array (parsedArray : Value) : JsMap.t :=
  match parsedArray with
  | Arr elems => JsMap.from_entries ((fun e => (index e 0, index e 1)) <$> elems)
  | _ => JsMap.empty
  end.

(** [string | FeedVO] *)
Inductive ItemIdOrFeed : Type :=
| ItemId (itemId : string)
| Feed (feed : FeedVO).

(** Which of the two mark operations a call is. *)
Inductive Mark : Type := Read | Unread.

Definition wants_read (k : Mark) : bool :=
  match k with Read => true | Unread => false end.

Definition status_of (k : Mark) : string :=
  match k with Read => "read" | Unread => "unread" end.

(** ** A reference [JSON.stringify] and [JSON.parse]

    The store is parametric in the two platform functions. To run it on
    concrete inputs, this module gives a writer and a reader for the JSON texts
    over [Value]: literals, integers, strings, arrays, objects. The reader
    rejects everything else, also numbers with a fraction or an exponent. *)

Module Json.

Definition quote : ascii := "034"%char.
Definition backslash : ascii := "\"%char.

Fixpoint escape (s : string) : string :=
  match s with
  | EmptyString => EmptyString
  | String c rest =>
      if bool_decide (c = quote \/ c = backslash)
      then String backslash (String c (escape rest))
      else String c (escape rest)
  end.

Definition quoted (s : string) : string :=
  String quote (escape s ++ String quote EmptyString).

Fixpoint stringify (v : Value) : string :=
  match v with
  | Undefined | Null => "null"
  | Bool true => "true"
  | Bool false => "false"
  | Num n => Number_toString n
  | Str s => quoted s
  | Arr elems => "[" ++ join "," (map stringify elems) ++ "]"
  | Obj fields =>
      "{" ++ join "," (map (fun kv => quoted kv.1 ++ ":" ++ stringify kv.2) fields)
          ++ "}"
  end.

Definition is_space (c : ascii) : bool :=
  bool_decide (c = " "%char \/ c = "009"%char \/ c = "010"%char \/ c = "013"%char).

Definition is_digit (c : ascii) : bool :=
  bool_decide (48 <= Z.of_N (N_of_ascii c) <= 57).

Fixpoint skip_space (cs : list ascii) : list ascii :=
  match cs with
  | c :: rest => if is_space c then skip_space rest else cs
  | [] => []
  end.

Fixpoint digits (cs : list ascii) : list ascii * list ascii :=
  match cs with
  | c :: rest =>
      if is_digit c then let '(ds, rest') := digits rest in (c :: ds, rest')
      else ([], cs)
  | [] => ([], [])
  end.

(** The characters of a string literal after its opening quote. *)
Fixpoint string_body (cs : list ascii) : option (list ascii * list ascii) :=
  match cs with
  | [] => None
  | c :: rest =>
      if bool_decide (c = quote) then Some ([], rest)
      else if bool_decide (c = backslash) then
        match rest with
        | e :: rest' =>
            if bool_decide (e = quote \/ e = backslash) then
              '(body, rest'') ← string_body rest'; Some (e :: body, rest'')
            else None
        | [] => None
        end
      else '(body, rest') ← string_body rest; Some (c :: body, rest')
  end.

Definition integer (cs : list ascii) : option (Value * list ascii) :=
  let '(sign, cs') :=
    match cs with
    | "-"%char :: rest => (["-"%char], rest)
    | _ => ([], cs)
    end in
  let '(ds, rest) := digits cs' in
  match ds, rest with
  | [], _ => None
  | "0"%char :: _ :: _, _ => None
  | _, c :: _ =>
      if bool_decide (c = "."%char \/ c = "e"%char \/ c = "E"%char) then None
      else n ← Number (string_of_list_ascii (sign ++ ds)); Some (Num n, rest)
  | _, [] => n ← Number (string_of_list_ascii (sign ++ ds)); Some (Num n, rest)
  end.

Fixpoint value (fuel : nat) (cs : list ascii) : option (Value * list ascii) :=
  match fuel with
  | O => None
  | S fuel =>
      match skip_space cs with
      | "n" :: "u" :: "l" :: "l" :: rest => Some (Null, rest)
      | "t" :: "r" :: "u" :: "e" :: rest => Some (Bool true, rest)
      | "f" :: "a" :: "l" :: "s" :: "e" :: rest => Some (Bool false, rest)
      | "[" :: rest =>
          match skip_space rest with
          | "]" :: rest' => Some (Arr [], rest')
          | _ => '(elems, rest') ← elements fuel rest; Some (Arr elems, rest')
          end
      | "{" :: rest =>
          match skip_space rest with
          | "}" :: rest' => Some (Obj [], rest')
          | _ => '(fields, rest') ← members fuel rest; Some (Obj fields, rest')
          end
      | c :: rest =>
          if bool_decide (c = quote) then
            '(body, rest') ← string_body rest;
            Some (Str (string_of_list_ascii body), rest')
          else integer (c :: rest)
      | [] => None
      end%char
  end
with elements (fuel : nat) (cs : list ascii)
    : option (list Value * list ascii) :=
  match fuel with
  | O => None
  | S fuel =>
      '(v, rest) ← value fuel cs;
      match skip_space rest with
      | "," :: rest' => '(vs, rest'') ← elements fuel rest'; Some (v :: vs, rest'')
      | "]" :: rest' => Some ([v], rest')
      | _ => None
      end%char
  end
with members (fuel : nat) (cs : list ascii)
    : option (list (string * Value) * list ascii) :=
  match fuel with
  | O => None
  | S fuel =>
      match skip_space cs with
      | c :: rest =>
          if bool_decide (c = quote) then
            '(key, rest1) ← string_body rest;
            match skip_space rest1 with
            | ":" :: rest2 =>
                '(v, rest3) ← value fuel rest2;
                let field := (string_of_list_ascii key, v) in
                match skip_space rest3 with
                | "," :: rest4 =>
                    '(fs, rest5) ← members fuel rest4; Some (field :: fs, rest5)
                | "}" :: rest4 => Some ([field], rest4)
                | _ => None
                end
            | _ => None
            end
          else None
      | [] => None
      end%char
  end.

(** [None]: a [SyntaxError]. *)
Definition parse (text : string) : option Value :=
  let cs := list_ascii_of_string text in
  '(v, rest) ← value (2 * length cs + 2) cs;
  match skip_space rest with
  | [] => Some v
  | _ => None
  end.

End Json.

(** ** readStateStore: the operations of [createReadItemsStore] *)

Section ReadItemsStore.

Context `{Platform} (env : Env).

Definition localStorage_available : bool :=
  has_window env && has_localStorage env.

(** The body of [createReadItemsStore] up to the definition of its
    closures: the store as it is after loading what was persisted. Both the
    wrong shape and a parse error are caught here; nothing is thrown. *)
Definition createReadItemsStore (stored : gmap string string) : Store :=
  let fresh := mkStore JsMap.empty [] stored [] [] in
  if localStorage_available then
    match stored !! READ_ITEMS_STORAGE_KEY with
    | Some storedData =>
        if truthy storedData then
          match JSON_parse storedData with
          | Some parsedArray =>
              if valid_format parsedArray
              then with_readItems (Map_of_array parsedArray) fresh
              else
                with_localStorage (delete READ_ITEMS_STORAGE_KEY stored)
                  (log (Warn, "Invalid read items format in localStorage. Clearing.")
                     fresh)
          | None =>
              with_localStorage (delete READ_ITEMS_STORAGE_KEY stored)
                (log (Error, "Failed to load/parse read items from localStorage:")
                   fresh)
          end
        else fresh
    | None => fresh
    end
  else fresh.

(** [setInterval(processSyncQueue, SYNC_INTERVAL)], only with a window. *)
Definition scheduled_interval : option Z :=
  if has_window env then Some SYNC_INTERVAL else None.

Definition saveToLocalStorage (map : JsMap.t) (st : Store) : Store :=
  if localStorage_available then
    let text := JSON_stringify (JsMap.entries map) in
    if storage_accepts env READ_ITEMS_STORAGE_KEY text
    then with_localStorage (<[READ_ITEMS_STORAGE_KEY := text]> (localStorage st)) st
    else log (Error, "Failed to save read items to localStorage:") st
  else st.

Definition updateLocalState (now : Z) (itemId : string) (isRead : bool)
    (st : Store) : Store :=
  let currentMap := readItems st in
  let newMap :=
    if isRead && negb (JsMap.has (Str itemId) currentMap)
    then JsMap.set (Str itemId) (Num now) currentMap
    else if negb isRead && JsMap.has (Str itemId) currentMap
    then JsMap.delete (Str itemId) currentMap
    else currentMap in
  with_readItems newMap (saveToLocalStorage newMap st).

Definition shouldSync (now : Z) (st : Store) : bool :=
  if negb (has_window env) || negb (has_localStorage env) then false
  else
    match localStorage st !! SYNC_TIMESTAMP_KEY with
    | None => true
    | Some lastSync =>
        if negb (truthy lastSync) then true
        else
          match Number lastSync with
          | Some n => bool_decide (now - n > SYNC_INTERVAL)
          | None => false                      (* a comparison with NaN *)
          end
    end.

(** [None]: [setItem] threw. *)
Definition updateSyncTimestamp (now : Z) (st : Store) : option Store :=
  if has_localStorage env then
    if storage_accepts env SYNC_TIMESTAMP_KEY (Number_toString now)
    then Some (with_localStorage
                 (<[SYNC_TIMESTAMP_KEY := Number_toString now]> (localStorage st)) st)
    else None
  else Some st.

(** The [catch] block of [syncWithBackend]. *)
Definition sync_failed (itemId : string) (st : Store) : Store :=
  queue_add itemId (log (Error, "Failed to sync read status with backend:") st).

(** [syncWithBackend], run from the call to the settlement of its promise;
    the result carries the clock at that moment. The code after the [await]
    runs in one turn and reads one clock value. The promise never rejects:
    every throw inside is caught. *)
Definition syncWithBackend (backend : Backend) (now : Z) (itemId : string)
    (st : Store) : Store * Z :=
  if negb (shouldSync now st) then (st, now)
  else
    let reply := getFeedReadStatus backend itemId now in
    let st := send (GET itemId) st in
    let now := settled_at reply in
    match outcome reply with
    | Rejected => (sync_failed itemId st, now)
    | Resolved status =>
        let st :=
          if is_string status "read" then updateLocalState now itemId true st
          else if is_string status "unread" then updateLocalState now itemId false st
          else st in
        match updateSyncTimestamp now st with
        | Some st => (st, now)
        | None => (sync_failed itemId st, now)
        end
    end.

(** [syncWithBackend] in the two turns of the event loop it takes when it
    pulls. [sync_called] is the code up to the [await]: the throttle check
    and, when it passes, the request; the boolean tells whether a pull is in
    flight. [sync_settled] is the code after the [await], run when the pull
    settles. *)
Definition sync_called (now : Z) (itemId : string) (st : Store) : Store * bool :=
  if negb (shouldSync now st) then (st, false)
  else (send (GET itemId) st, true).

Definition sync_settled (now : Z) (itemId : string) (o : Outcome) (st : Store)
    : Store :=
  match o with
  | Rejected => sync_failed itemId st
  | Resolved status =>
      let st :=
        if is_string status "read" then updateLocalState now itemId true st
        else if is_string status "unread" then updateLocalState now itemId false st
        else st in
      match updateSyncTimestamp now st with
      | Some st => st
      | None => sync_failed itemId st
      end
  end.

(** [processSyncQueue], run from the call to the end of its loop with no other
    handler in between: the queue is copied and cleared, then the copy is
    walked in order, each call starting when the one before has settled. As
    [syncWithBackend] never rejects, the [catch] of the loop body is never
    entered. A tick of the scheduler is a call of this function. *)
Definition processSyncQueue (backend : Backend) (now : Z) (st : Store)
    : Store * Z :=
  let itemsToSync := syncQueue st in
  fold_left (fun acc itemId => syncWithBackend backend acc.2 itemId acc.1)
            itemsToSync (with_syncQueue [] st, now).

Definition resolve (itemIdOrFeed : ItemIdOrFeed) : string :=
  match itemIdOrFeed with
  | ItemId itemId => itemId
  | Feed feed => getFeedItemId feed
  end.

(** [markRead] and [markUnread] differ in the status they request. Each runs
    in two turns of the event loop: [mark_called] is the code up to the
    [await] (the local update, and the request leaves), [mark_settled] the
    code after it, run when the push settles. *)
Definition mark_called (k : Mark) (now : Z) (itemIdOrFeed : ItemIdOrFeed)
    (st : Store) : Store :=
  let itemId := resolve itemIdOrFeed in
  send (POST itemId (status_of k)) (updateLocalState now itemId (wants_read k) st).

Definition mark_failed_message (k : Mark) : string :=
  match k with
  | Read => "Failed to mark item as read in backend:"
  | Unread => "Failed to mark item as unread in backend:"
  end.

Definition mark_settled (k : Mark) (now : Z) (itemId : string) (o : Outcome)
    (st : Store) : Store :=
  match o with
  | Resolved status =>
      if negb (is_string status (status_of k))
      then updateLocalState now itemId (negb (wants_read k)) st
      else st
  | Rejected => queue_add itemId (log (Error, mark_failed_message k) st)
  end.

(** A mark operation with nothing else running in between. *)
Definition mark (k : Mark) (backend : Backend) (now : Z)
    (itemIdOrFeed : ItemIdOrFeed) (st : Store) : Store * Z :=
  let itemId := resolve itemIdOrFeed in
  let reply := updateFeedReadStatus backend itemId (status_of k) now in
  (mark_settled k (settled_at reply) itemId (outcome reply)
     (mark_called k now itemIdOrFeed st),
   settled_at reply).

Definition markUnread := mark Unread.
Definition sync := syncWithBackend.
Definition syncAll := processSyncQueue.

Definition isRead (itemIdOrFeed : ItemIdOrFeed) (currentMap : JsMap.t) : bool :=
  JsMap.has (Str (resolve itemIdOrFeed)) currentMap.

Definition reset (st : Store) : Store :=
  let ls :=
    if localStorage_available
    then delete SYNC_TIMESTAMP_KEY (delete READ_ITEMS_STORAGE_KEY (localStorage st))
    else localStorage st in
  mkStore JsMap.empty [] ls (console st) (network st).

(** The read-items slot mirrors the map. *)
Definition persisted (st : Store) : Prop :=
  localStorage st !! READ_ITEMS_STORAGE_KEY
  = Some (JSON_stringify (JsMap.entries (readItems st))).

(** Persisted text that does not deserialize to an array of two-element
    arrays: [JSON.parse] throws on it, or yields another shape. *)
Definition malformed (text : string) : Prop :=
  match JSON_parse text with
  | Some parsedArray => valid_format parsedArray = false
  | None => True
  end.

(** The store has discarded what was persisted: empty map, read-items key
    removed, something logged. *)
Definition discarded (st : Store) : Prop :=
  readItems st = JsMap.empty /\
  localStorage st !! READ_ITEMS_STORAGE_KEY = None /\
  console st <> [].

(** Interleavings of mark operations: what the event loop runs, in order. *)
Inductive Event : Type :=
| Called (k : Mark) (itemIdOrFeed : ItemIdOrFeed) (now : Z)
| Settled (k : Mark) (itemId : string) (o : Outcome) (now : Z).

Definition step (st : Store) (e : Event) : Store :=
  match e with
  | Called k itemIdOrFeed now => mark_called k now itemIdOrFeed st
  | Settled k itemId o now => mark_settled k now itemId o st
  end.

Definition run (trace : list Event) (st : Store) : Store :=
  fold_left step trace st.

(** The status the latest mark operation on [itemId] asked for. *)
Fixpoint wanted (itemId : string) (trace : list Event) : option Mark :=
  match trace with
  | [] => None
  | e :: rest =>
      match wanted itemId rest with
      | Some k => Some k
      | None =>
          match e with
          | Called k itemIdOrFeed _ =>
              if bool_decide (resolve itemIdOrFeed = itemId) then Some k else None
          | Settled _ _ _ _ => None
          end
      end
  end.

(** The map agrees with the latest mark operation issued for the item. *)
Definition newest_wins (trace : list Event) (st : Store) (itemId : string)
    : Prop :=
  forall k, wanted itemId trace = Some k ->
    JsMap.has (Str itemId) (readItems (run trace st)) = wants_read k.

End ReadItemsStore.

(** The item an event is about. *)
Definition event_item `{Platform} (e : Event) : string :=
  match e with
  | Called _ itemIdOrFeed _ => resolve itemIdOrFeed
  | Settled _ itemId _ _ => itemId
  end.

(** The lists of a store stand for a [Map] and a [Set]. *)
Definition store_wf (st : Store) : Prop :=
  JsMap.distinct (readItems st) /\ NoDup (syncQueue st).

(** A property of stores kept by each elementary update the operations are
    made of, as long as the update is for an item in [touched]. *)
Definition stable `{Platform} (env : Env) (touched : string -> Prop)
    (P : Store -> Prop) : Prop :=
  (forall now itemId b st,
     touched itemId -> P st -> P (updateLocalState env now itemId b st)) /\
  (forall r st, P st -> P (send r st)) /\
  (forall e st, P st -> P (log e st)) /\
  (forall itemId st, touched itemId -> P st -> P (queue_add itemId st)) /\
  (forall now st st', P st -> updateSyncTimestamp env now st = Some st' -> P st') /\
  (forall st, P st -> P (with_syncQueue [] st)).

(** ** Scenarios *)

Definition chrome : Env := mkEnv true true (fun _ _ => true).
Definition server : Env := mkEnv false false (fun _ _ => true).

(** A backend that answers every call the same way after [latency] ms. *)
Definition answering (o : Outcome) (latency : Z) : Backend :=
  mkBackend (fun _ t => mkReply o (t + latency))
            (fun _ _ t => mkReply o (t + latency)).

Definition new_store : Store := mkStore JsMap.empty [] ∅ [] [].

(** Item 42 waits in the queue; the last reconciliation was one second ago. *)
Definition queued_after_recent_sync : Store :=
  mkStore JsMap.empty ["42"] {[ SYNC_TIMESTAMP_KEY := "1000" ]} [] [].

(** Two items wait in the queue; nothing was reconciled before. *)
Definition two_queued : Store := mkStore JsMap.empty ["a"; "b"] ∅ [] [].

(** [markRead], [markUnread], [markRead] on one item, then the push of the
    first [markRead] resolves with another status than it asked for. *)
Definition late_mismatch : list Event :=
  [ Called Read (ItemId "a") 1;
    Called Unread (ItemId "a") 2;
    Called Read (ItemId "a") 3;
    Settled Read "a" (Resolved (Str "unread")) 4 ].

(** Item a was marked read at time 3. *)
Definition a_read : Store := mkStore [(Str "a", Num 3)] [] ∅ [] [].

(** The read-items slot holds the empty string. *)
Definition empty_text_stored : gmap string string :=
  {[ READ_ITEMS_STORAGE_KEY := EmptyString ]}.

(** The read-items slot holds the JSON text of a string. *)
Definition string_stored : gmap string string :=
  {[ READ_ITEMS_STORAGE_KEY := Json.stringify (Str "not-an-array") ]}.

(** The read-items slot holds text that is no JSON. *)
Definition garbage_stored : gmap string string :=
  {[ READ_ITEMS_STORAGE_KEY := "not-an-array" ]}.

(** A browser whose storage is full: every [setItem] throws. *)
Definition full_storage : Env := mkEnv true true (fun _ _ => false).

(** Items a and b are read, item 42 waits in the queue, the map is saved. *)
Definition busy_store : Store :=
  mkStore [(Str "a", Num 3); (Str "b", Num 5)] ["42"]
          {[ READ_ITEMS_STORAGE_KEY :=
               Json.stringify (JsMap.entries [(Str "a", Num 3); (Str "b", Num 5)]) ]}
          [] [].

(** The sync timestamp slot holds text that is no number. *)
Definition bad_stamp : Store :=
  mkStore JsMap.empty ["42"] {[ SYNC_TIMESTAMP_KEY := "yesterday" ]} [] [].

(** Time values for two ISO dates, [NaN] for anything else. *)
Definition two_dates (s : string) : option Z :=
  if bool_decide (s = "2024-01-01T00:00:00Z") then Some 1704067200000
  else if bool_decide (s = "2024-01-02T00:00:00Z") then Some 1704153600000
  else None.

(** A comparison of strings by code units, as a stand-in for
    [localeCompare]. *)
Definition compare_code_units (a b : string) : Z :=
  match String.compare a b with
  | Lt => -1
  | Eq => 0
  | Gt => 1
  end.

(** A 32-bit string hash of the usual kind, to run [getFeedItemId] with. *)
Definition hash31 (s : string) : Z :=
  fold_left (fun h c => (h * 31 + Z.of_N (N_of_ascii c)) mod 2 ^ 32)
            (list_ascii_of_string s) 0.

Instance reference : Platform := {|
  JSON_parse := Json.parse;
  JSON_stringify := Json.stringify;
  simpleHash := hash31
|}.

(** Two [sync] calls for item 42 on a new store, at times 0 and 1; then the
    pull of the first call resolves at time 120. *)
Definition overlapping_syncs : Store :=
  sync_settled chrome 120 "42" (Resolved (Str "read"))
    (sync_called chrome 1 "42" (sync_called chrome 0 "42" new_store).1).1.

(** * Properties *)

(** ** The platform model *)

Example sorted_join :
  combinedString [("title", "B"); ("author", "x")] = "author=x&title=B".
Proof. reflexivity. Qed.

Example json_roundtrip :
  Json.parse (Json.stringify (Arr [Arr [Str "42"; Num 1700000000000]]))
  = Some (Arr [Arr [Str "42"; Num 1700000000000]]).
Proof. vm_compute. reflexivity. Qed.

Example json_rejects : Json.parse "not-an-array" = None.
Proof. reflexivity. Qed.

(** A slot of the right shape is loaded into the map; a key met twice keeps
    its first place and its last value. *)
Example load_persisted :
  readItems
    (createReadItemsStore chrome
       {[ READ_ITEMS_STORAGE_KEY :=
            Json.stringify (Arr [Arr [Str "a"; Num 5]; Arr [Str "b"; Num 6];
                                 Arr [Str "a"; Num 7]]) ]})
  = [(Str "a", Num 7); (Str "b", Num 6)].
Proof. vm_compute. reflexivity. Qed.

(** On the server there is no storage: nothing is loaded or removed. *)
Example load_on_server :
  createReadItemsStore server garbage_stored
  = mkStore JsMap.empty [] garbage_stored [] [].
Proof. reflexivity. Qed.

(** Projections of a store after one of the record updates. *)
Ltac fields :=
  cbn [readItems syncQueue localStorage console network
       with_readItems with_syncQueue with_localStorage log send queue_add].

Lemma storage_keys_differ : READ_ITEMS_STORAGE_KEY <> SYNC_TIMESTAMP_KEY.
Proof. discriminate. Qed.

Lemma Number_toString_inv (n : Z) : Number (Number_toString n) = Some n.
Proof.
  unfold Number, Number_toString.
  rewrite NilZero.isi.
  - simpl. by rewrite DecimalZ.of_to.
  - destruct n as [|p|p]; simpl; try discriminate.
    intros [= H]. by apply (DecimalPos.Unsigned.to_uint_nonnil p).
  - destruct n as [|p|p]; simpl; try discriminate.
    intros [= H]. by apply (DecimalPos.Unsigned.to_uint_nonnil p).
Qed.

Lemma Number_toString_truthy (n : Z) : truthy (Number_toString n) = true.
Proof.
  pose proof (Number_toString_inv n) as H.
  destruct (Number_toString n); [discriminate H | reflexivity].
Qed.

Lemma elem_of_Set_add (x y : string) (s : list string) :
  x ∈ Set_add y s <-> x = y \/ x ∈ s.
Proof.
  unfold Set_add. case_bool_decide.
  - split; [by right|]. by intros [->|].
  - rewrite elem_of_app, list_elem_of_singleton. tauto.
Qed.

Lemma Set_add_NoDup (y : string) (s : list string) :
  NoDup s -> NoDup (Set_add y s).
Proof.
  intros Hs. unfold Set_add. case_bool_decide; [done|].
  apply NoDup_app. split; [done|]. split.
  - intros x Hx ->%list_elem_of_singleton. done.
  - apply NoDup_singleton.
Qed.

Lemma has_set (s : string) (v : Value) (m : JsMap.t) :
  JsMap.has (Str s) (JsMap.set (Str s) v m) = true.
Proof.
  induction m as [|[k' v'] m IH]; simpl.
  - by rewrite bool_decide_eq_true_2.
  - destruct (same_value_zero k' (Str s)) eqn:E; simpl; by rewrite ?E.
Qed.

Lemma has_delete (s : string) (m : JsMap.t) :
  JsMap.has (Str s) (JsMap.delete (Str s) m) = false.
Proof.
  induction m as [|[k' v'] m IH]; simpl; [done|].
  destruct (same_value_zero k' (Str s)) eqn:E; simpl; by rewrite ?E.
Qed.

Lemma get_set (s : string) (v : Value) (m : JsMap.t) :
  JsMap.has (Str s) m = false -> JsMap.get (Str s) (JsMap.set (Str s) v m) = Some v.
Proof.
  induction m as [|[k' v'] m IH]; simpl.
  - by rewrite bool_decide_eq_true_2.
  - destruct (same_value_zero k' (Str s)) eqn:E; simpl; [done|].
    rewrite E. auto.
Qed.

(** ** Item identity *)

Lemma Array_sort_sorted (keys : list string) : Sorted String.le (Array_sort keys).
Proof. apply (Sorted_merge_sort String.le). Qed.

Lemma Array_sort_perm (keys : list string) : Array_sort keys ≡ₚ keys.
Proof. apply (merge_sort_Permutation String.le). Qed.

(** The sorted arrangement of a list of keys is unique. *)
Lemma Array_sort_unique (keys ks : list string) :
  Sorted String.le ks -> ks ≡ₚ keys -> Array_sort keys = ks.
Proof.
  intros Hs Hp. apply (Sorted_unique String.le).
  - apply Array_sort_sorted.
  - exact Hs.
  - by rewrite Array_sort_perm, Hp.
Qed.

Lemma label_at_elem (labels : FeedLabels) (key v : string) :
  labels_wf labels -> (key, v) ∈ labels -> label_at labels key = v.
Proof.
  unfold labels_wf, label_at.
  induction labels as [|[k w] labels IH]; intros Hnd Hin.
  - by apply elem_of_nil in Hin.
  - apply NoDup_cons in Hnd as [Hk Hnd]. simpl in *.
    apply elem_of_cons in Hin as [[= -> ->]|Hin].
    + by rewrite decide_True.
    + rewrite decide_False.
      * specialize (IH Hnd Hin). revert IH.
        destruct (list_find _ labels) as [[? [? ?]]|]; simpl; done.
      * intros ->. apply Hk. apply list_elem_of_fmap. by exists (key, v).
Qed.

Lemma label_at_perm (l1 l2 : FeedLabels) (key : string) :
  labels_wf l1 -> l1 ≡ₚ l2 -> key ∈ Object_keys l1 ->
  label_at l1 key = label_at l2 key.
Proof.
  intros Hwf Hp Hk. unfold Object_keys in Hk.
  apply list_elem_of_fmap in Hk as [[k v] [-> Hin]]. simpl.
  rewrite (label_at_elem l1 k v Hwf Hin).
  symmetry. apply label_at_elem.
  - unfold labels_wf. by rewrite <- Hp.
  - by rewrite <- Hp.
Qed.

Lemma combinedString_perm (l1 l2 : FeedLabels) :
  labels_wf l1 -> l1 ≡ₚ l2 -> combinedString l1 = combinedString l2.
Proof.
  intros Hwf Hp. unfold combinedString.
  assert (Array_sort (Object_keys l2) = Array_sort (Object_keys l1)) as ->.
  { apply Array_sort_unique; [apply Array_sort_sorted|].
    rewrite Array_sort_perm. unfold Object_keys. by rewrite Hp. }
  f_equal. apply list_fmap_ext. intros i key Hi.
  f_equal. f_equal. apply label_at_perm; [done..|].
  rewrite <- (Array_sort_perm (Object_keys l1)).
  by eapply list_elem_of_lookup_2.
Qed.

(** C7. [getFeedItemId] returns the string form of the backend id when the
    item has one. Otherwise it returns the decimal numeral of the hash of the
    canonical string: the [key=value] pairs joined with [&] along the keys in
    ascending order, whatever sorted arrangement [ks] of the keys one takes.
    Two items with the same id, or without id and with the same labels in any
    insertion order, get the same result; with no labels the empty string is
    hashed. The function is total: it returns on every item. *)
Theorem getFeedItemId_stable `{Platform} (feed : FeedVO) :
  (forall i, feed_id feed = Some i ->
     getFeedItemId feed = FeedId_toString i) /\
  (feed_id feed = None ->
   forall ks, Sorted String.le ks -> ks ≡ₚ Object_keys (feed_labels feed) ->
     getFeedItemId feed
     = Number_toString
         (simpleHash
            (join "&" ((fun key => key ++ "=" ++ label_at (feed_labels feed) key)
                         <$> ks)))) /\
  (forall feed',
     feed_id feed' = feed_id feed ->
     (feed_id feed = None ->
        labels_wf (feed_labels feed) /\ feed_labels feed' ≡ₚ feed_labels feed) ->
     getFeedItemId feed' = getFeedItemId feed) /\
  (feed_id feed = None -> feed_labels feed = [] ->
     getFeedItemId feed = Number_toString (simpleHash EmptyString)).
Proof.
  unfold getFeedItemId. repeat split.
  - by intros i ->.
  - intros -> ks Hs Hp. unfold combinedString.
    by rewrite (Array_sort_unique _ ks Hs Hp).
  - intros feed' Hid Hl. rewrite Hid.
    destruct (feed_id feed); [done|].
    destruct Hl as [Hwf Hp]; [done|].
    do 2 f_equal. symmetry. by apply combinedString_perm.
  - by intros -> ->.
Qed.

Lemma getFeedItemId_stable_witness :
  getFeedItemId (mkFeedVO (Some (IdNumber 42)) [("title", "B")] "t") = "42" /\
  getFeedItemId (mkFeedVO None [("author", "x"); ("title", "B")] "t")
  = getFeedItemId (mkFeedVO None [("title", "B"); ("author", "x")] "t") /\
  getFeedItemId (mkFeedVO None [] "t") = Number_toString (simpleHash EmptyString).
Proof.
  split; [|split].
  - destruct (getFeedItemId_stable
                (mkFeedVO (Some (IdNumber 42)) [("title", "B")] "t"))
      as (Hid & _).
    apply (Hid (IdNumber 42)). reflexivity.
  - destruct (getFeedItemId_stable
                (mkFeedVO None [("title", "B"); ("author", "x")] "t"))
      as (_ & _ & Hperm & _).
    apply Hperm; [reflexivity|].
    intros _. split.
    + unfold labels_wf. simpl. apply (bool_decide_unpack _). vm_compute. exact I.
    + simpl. apply perm_swap.
  - destruct (getFeedItemId_stable (mkFeedVO None [] "t")) as (_ & _ & _ & Hnil).
    apply Hnil; reflexivity.
Defined.

(** ** The local truth store *)

Section StoreProperties.

Context `{Platform} (env : Env).

Lemma localStorage_available_browser :
  browser env -> localStorage_available env = true.
Proof. unfold localStorage_available. by intros [-> ->]. Qed.

Lemma saveToLocalStorage_frame (map : JsMap.t) (st : Store) :
  readItems (saveToLocalStorage env map st) = readItems st /\
  syncQueue (saveToLocalStorage env map st) = syncQueue st /\
  network (saveToLocalStorage env map st) = network st.
Proof.
  unfold saveToLocalStorage. by repeat case_match.
Qed.

Lemma saveToLocalStorage_slot (map : JsMap.t) (st : Store) :
  browser env -> storage_writable env ->
  localStorage (saveToLocalStorage env map st) !! READ_ITEMS_STORAGE_KEY
  = Some (JSON_stringify (JsMap.entries map)).
Proof.
  intros Hb Hw. unfold saveToLocalStorage.
  rewrite (localStorage_available_browser Hb), Hw. simpl.
  apply lookup_insert_eq.
Qed.

Lemma updateLocalState_frame (now : Z) (itemId : string) (b : bool) (st : Store) :
  syncQueue (updateLocalState env now itemId b st) = syncQueue st /\
  network (updateLocalState env now itemId b st) = network st.
Proof.
  unfold updateLocalState. fields.
  split; apply saveToLocalStorage_frame.
Qed.

Lemma updateLocalState_persisted (now : Z) (itemId : string) (b : bool)
    (st : Store) :
  browser env -> storage_writable env ->
  persisted (updateLocalState env now itemId b st).
Proof.
  intros Hb Hw. unfold persisted, updateLocalState. fields.
  by apply saveToLocalStorage_slot.
Qed.

Lemma updateLocalState_has (now : Z) (itemId : string) (b : bool) (st : Store) :
  JsMap.has (Str itemId) (readItems (updateLocalState env now itemId b st)) = b.
Proof.
  unfold updateLocalState. fields.
  destruct b, (JsMap.has (Str itemId) (readItems st)) eqn:E; simpl;
    auto using has_set, has_delete.
Qed.

Lemma updateLocalState_same (now : Z) (itemId : string) (b : bool) (st : Store) :
  JsMap.has (Str itemId) (readItems st) = b ->
  readItems (updateLocalState env now itemId b st) = readItems st.
Proof.
  intros E. unfold updateLocalState. fields.
  rewrite E. by destruct b.
Qed.

(** C10. The local mark operations are idempotent on the map. Marking read an
    id that is present leaves the map as it is, and with it the timestamp
    recorded for the id; marking unread an id that is absent leaves the map
    as it is; doing the same local update twice is doing it once. *)
Theorem updateLocalState_idempotent (now : Z) (itemId : string) (st : Store) :
  (JsMap.has (Str itemId) (readItems st) = true ->
     readItems (updateLocalState env now itemId true st) = readItems st /\
     JsMap.get (Str itemId) (readItems (updateLocalState env now itemId true st))
     = JsMap.get (Str itemId) (readItems st)) /\
  (JsMap.has (Str itemId) (readItems st) = false ->
     readItems (updateLocalState env now itemId false st) = readItems st) /\
  (forall b later,
     readItems (updateLocalState env later itemId b (updateLocalState env now itemId b st))
     = readItems (updateLocalState env now itemId b st)).
Proof.
  split; [|split].
  - intros E. by rewrite updateLocalState_same.
  - intros E. by apply updateLocalState_same.
  - intros b later. apply updateLocalState_same, updateLocalState_has.
Qed.

(** C6. [markRead] changes the map in the turn of the call, before the push
    settles: right after the local update [isRead] answers true for the
    item, and in a browser whose storage takes the write the read-items slot
    holds the whole new map. The request to the backend has only been sent. *)
Theorem markRead_optimistic (now : Z) (itemIdOrFeed : ItemIdOrFeed) (st : Store) :
  let st' := mark_called env Read now itemIdOrFeed st in
  isRead itemIdOrFeed (readItems st') = true /\
  (browser env -> storage_writable env -> persisted st') /\
  network st' = (network st ++ [POST (resolve itemIdOrFeed) "read"])%list /\
  syncQueue st' = syncQueue st.
Proof.
  intros st'. subst st'. unfold mark_called, isRead, persisted. fields.
  split; [|split; [|split]].
  - apply updateLocalState_has.
  - intros Hb Hw. by apply updateLocalState_persisted.
  - f_equal. apply updateLocalState_frame.
  - apply updateLocalState_frame.
Qed.

(** C4. When the push of [markRead] resolves with a status other than
    ['read'], the item ends up unread: its entry is gone from the map, the
    map is persisted, and the retry queue is left as it was. The same holds
    for [markUnread] and a status other than ['unread'], with the item
    ending up read. *)
Theorem mark_rolled_back (k : Mark) (now : Z) (itemId : string)
    (status : Value) (st : Store) :
  is_string status (status_of k) = false ->
  let st' := mark_settled env k now itemId (Resolved status) st in
  JsMap.has (Str itemId) (readItems st') = negb (wants_read k) /\
  (browser env -> storage_writable env -> persisted st') /\
  syncQueue st' = syncQueue st /\
  network st' = network st.
Proof.
  intros E st'. subst st'. unfold mark_settled. rewrite E. cbn [negb].
  split; [|split; [|split]].
  - apply updateLocalState_has.
  - intros Hb Hw. by apply updateLocalState_persisted.
  - apply updateLocalState_frame.
  - apply updateLocalState_frame.
Qed.

(** ** Reconciliation: [sync] and the drain of the retry queue *)

Lemma syncWithBackend_skipped (backend : Backend) (now : Z) (itemId : string)
    (st : Store) :
  shouldSync env now st = false ->
  syncWithBackend env backend now itemId st = (st, now).
Proof. intros E. unfold syncWithBackend. by rewrite E. Qed.

Lemma shouldSync_localStorage (now : Z) (st : Store) :
  shouldSync env now st = true -> has_localStorage env = true.
Proof.
  unfold shouldSync.
  destruct (has_window env), (has_localStorage env); simpl; done.
Qed.

(** Within the interval after a stored timestamp the throttle is closed. *)
Lemma shouldSync_recent (stamp later : Z) (st : Store) :
  localStorage st !! SYNC_TIMESTAMP_KEY = Some (Number_toString stamp) ->
  later - stamp <= SYNC_INTERVAL ->
  shouldSync env later st = false.
Proof.
  intros Hls Hle. unfold shouldSync.
  destruct (negb (has_window env) || negb (has_localStorage env)); [done|].
  rewrite Hls, Number_toString_truthy, Number_toString_inv. simpl.
  apply bool_decide_eq_false_2. lia.
Qed.

Lemma updateLocalState_sync_slot (now : Z) (itemId : string) (b : bool)
    (st : Store) :
  localStorage (updateLocalState env now itemId b st) !! SYNC_TIMESTAMP_KEY
  = localStorage st !! SYNC_TIMESTAMP_KEY.
Proof.
  unfold updateLocalState, saveToLocalStorage. fields.
  repeat case_match; fields; try done;
    apply lookup_insert_ne, storage_keys_differ.
Qed.

(** A pull that resolves, in a storage that takes the write: the request
    went out, the timestamp is the time of settlement, the queue is as it
    was. *)
Lemma syncWithBackend_resolved (backend : Backend) (now : Z) (itemId : string)
    (status : Value) (st : Store) :
  storage_writable env ->
  shouldSync env now st = true ->
  outcome (getFeedReadStatus backend itemId now) = Resolved status ->
  let done := syncWithBackend env backend now itemId st in
  done.2 = settled_at (getFeedReadStatus backend itemId now) /\
  localStorage done.1 !! SYNC_TIMESTAMP_KEY = Some (Number_toString done.2) /\
  network done.1 = (network st ++ [GET itemId])%list /\
  syncQueue done.1 = syncQueue st.
Proof.
  intros Hw Hs Ho done. subst done. unfold syncWithBackend.
  rewrite Hs, Ho. cbn [negb]. unfold updateSyncTimestamp.
  rewrite (shouldSync_localStorage _ _ Hs), Hw. cbn [fst snd]. fields.
  split; [done|]. split; [apply lookup_insert_eq|].
  repeat case_match; rewrite ?(proj1 (updateLocalState_frame _ _ _ _)),
    ?(proj2 (updateLocalState_frame _ _ _ _)); done.
Qed.

(** The two turns of a pulling [syncWithBackend] make up the call. *)
Lemma syncWithBackend_turns (backend : Backend) (now : Z) (itemId : string)
    (st : Store) :
  syncWithBackend env backend now itemId st
  = let reply := getFeedReadStatus backend itemId now in
    let called := sync_called env now itemId st in
    if called.2
    then (sync_settled env (settled_at reply) itemId (outcome reply) called.1,
          settled_at reply)
    else (st, now).
Proof.
  unfold syncWithBackend, sync_called, sync_settled.
  destruct (shouldSync env now st); cbn [negb fst snd]; [|done].
  destruct (outcome _); [|done]. by case_match.
Qed.

(** A pull that resolves stamps the time at which it settles. *)
Lemma sync_settled_stamp (settled : Z) (itemId : string) (status : Value)
    (st : Store) :
  storage_writable env -> has_localStorage env = true ->
  localStorage (sync_settled env settled itemId (Resolved status) st)
    !! SYNC_TIMESTAMP_KEY = Some (Number_toString settled).
Proof.
  intros Hw Hls. unfold sync_settled, updateSyncTimestamp.
  rewrite Hls, Hw. fields. apply lookup_insert_eq.
Qed.

(** C8, as the code has it. The timestamp that throttles [sync] is written
    when a pull settles. A [sync] (of the same or of another item) that starts
    after a reconciliation has settled, and no later than the sync interval
    after it, is skipped as a whole: same map, same storage and timestamp,
    same queue, no request; so two calls of which the second starts after the
    first has settled send one pull. A call that starts while the pull of an
    earlier call is in flight is not throttled by that call: both pull. *)
Theorem sync_throttled_once_stamped (backend : Backend) (now later : Z)
    (itemId other : string) (status : Value) (st : Store) :
  storage_writable env ->
  shouldSync env now st = true ->
  outcome (getFeedReadStatus backend itemId now) = Resolved status ->
  (let first := sync env backend now itemId st in
   later - first.2 <= SYNC_INTERVAL ->
   let second := sync env backend later other first.1 in
   second = (first.1, later) /\
   network second.1 = (network st ++ [GET itemId])%list) /\
  (forall settled,
     let reconciled :=
       sync_settled env settled itemId (Resolved status)
         (sync_called env now itemId st).1 in
     later - settled <= SYNC_INTERVAL ->
     sync_called env later other reconciled = (reconciled, false) /\
     network reconciled = (network st ++ [GET itemId])%list) /\
  (shouldSync env later st = true ->
   let both := sync_called env later other (sync_called env now itemId st).1 in
   both.2 = true /\
   network both.1 = (network st ++ [GET itemId; GET other])%list).
Proof.
  intros Hw Hs Ho. split; [|split].
  - intros first Hle second. subst first second. unfold sync in *.
    destruct (syncWithBackend_resolved backend now itemId status st Hw Hs Ho)
      as (Ht & Hls & Hn & _).
    rewrite (syncWithBackend_skipped backend later other _
               (shouldSync_recent _ _ _ Hls Hle)).
    by split.
  - intros settled reconciled Hle. subst reconciled. split.
    + unfold sync_called at 1.
      rewrite (shouldSync_recent settled later); [done| |done].
      by apply sync_settled_stamp, (shouldSync_localStorage now st).
    + unfold sync_called, sync_settled, updateSyncTimestamp.
      rewrite Hs, (shouldSync_localStorage now st Hs), Hw. cbn [negb fst]. fields.
      repeat case_match;
        rewrite ?(proj2 (updateLocalState_frame _ _ _ _)); done.
  - intros Hs' both. subst both. unfold sync_called. rewrite Hs. cbn [negb fst].
    assert (shouldSync env later (send (GET itemId) st) = true) as -> by done.
    cbn [negb fst snd]. fields. by rewrite <- app_assoc.
Qed.

(** A pull that rejects puts the item into the queue. *)
Lemma syncWithBackend_requeues_rejected (backend : Backend) (now : Z)
    (itemId : string) (st : Store) :
  shouldSync env now st = true ->
  outcome (getFeedReadStatus backend itemId now) = Rejected ->
  itemId ∈ syncQueue (syncWithBackend env backend now itemId st).1.
Proof.
  intros Hs Ho. unfold syncWithBackend. rewrite Hs, Ho. cbn [negb fst].
  unfold sync_failed. fields. apply elem_of_Set_add. by left.
Qed.



(** With the throttle closed a drain empties the queue and sends nothing. *)
Lemma drain_throttled (backend : Backend) (now : Z) (st : Store) :
  shouldSync env now st = false ->
  processSyncQueue env backend now st = (with_syncQueue [] st, now).
Proof.
  intros Hs. unfold processSyncQueue.
  assert (shouldSync env now (with_syncQueue [] st) = false) as Hs' by done.
  revert Hs'. generalize (with_syncQueue [] st) as st0.
  induction (syncQueue st) as [|j items IH]; intros st0 Hs0; [done|].
  simpl. rewrite (syncWithBackend_skipped backend now j st0 Hs0). by apply IH.
Qed.


(** ** Loading what was persisted *)

(** C9, as the code has it. In a browser, when the read-items slot holds a
    non-empty text that does not deserialize to an array of two-element
    arrays, the store starts with an empty map, the read-items key is
    removed from storage and one diagnostic is logged: a warning when the
    text parses to another shape, an error when it does not parse. The
    result is a store: nothing is thrown. *)
Theorem createReadItemsStore_discards_malformed
    (stored : gmap string string) (text : string) :
  browser env ->
  stored !! READ_ITEMS_STORAGE_KEY = Some text ->
  truthy text = true ->
  malformed text ->
  let st := createReadItemsStore env stored in
  discarded st /\
  localStorage st = delete READ_ITEMS_STORAGE_KEY stored /\
  console st =
    [ match JSON_parse text with
      | Some _ => (Warn, "Invalid read items format in localStorage. Clearing.")
      | None => (Error, "Failed to load/parse read items from localStorage:")
      end ] /\
  syncQueue st = [] /\ network st = [].
Proof.
  intros Hb Hs Ht Hm st. subst st. unfold createReadItemsStore, discarded.
  rewrite (localStorage_available_browser Hb), Hs, Ht.
  unfold malformed in Hm.
  destruct (JSON_parse text) as [parsedArray|]; [rewrite Hm|]; fields;
    rewrite lookup_delete_eq; done.
Qed.

End StoreProperties.

(** ** The scenarios, run *)

Lemma chrome_browser : browser chrome.
Proof. by split. Qed.

Lemma chrome_writable : storage_writable chrome.
Proof. by intros key text. Qed.

Lemma updateLocalState_idempotent_witness :
  readItems (updateLocalState chrome 9 "a" true a_read) = readItems a_read /\
  readItems (updateLocalState chrome 9 "a" false new_store) = readItems new_store.
Proof.
  split.
  - destruct (updateLocalState_idempotent chrome 9 "a" a_read) as (Hread & _).
    apply Hread. reflexivity.
  - destruct (updateLocalState_idempotent chrome 9 "a" new_store)
      as (_ & Hunread & _).
    apply Hunread. reflexivity.
Defined.

Lemma markRead_optimistic_witness :
  let st' := mark_called chrome Read 2000 (ItemId "42") new_store in
  isRead (ItemId "42") (readItems st') = true /\ persisted st'.
Proof.
  destruct (markRead_optimistic chrome 2000 (ItemId "42") new_store)
    as (Hread & Hsaved & _).
  split; [exact Hread|].
  apply Hsaved; [exact chrome_browser | exact chrome_writable].
Defined.

Lemma mark_rolled_back_witness :
  let st := mark_called chrome Read 2000 (ItemId "42") new_store in
  let st' := mark_settled chrome Read 2120 "42" (Resolved (Str "unread")) st in
  JsMap.has (Str "42") (readItems st') = false /\ syncQueue st' = [].
Proof.
  destruct (mark_rolled_back chrome Read 2120 "42" (Str "unread")
              (mark_called chrome Read 2000 (ItemId "42") new_store))
    as (Hunread & _ & Hqueue & _).
  - reflexivity.
  - split; [exact Hunread | exact Hqueue].
Defined.


Lemma sync_throttled_once_stamped_witness :
  let backend := answering (Resolved (Str "read")) 120 in
  let first := sync chrome backend 2000 "42" new_store in
  sync chrome backend 900000 "42" first.1 = (first.1, 900000) /\
  network (sync_called chrome 2001 "42" (sync_called chrome 2000 "42" new_store).1).1
  = [GET "42"; GET "42"].
Proof.
  destruct (sync_throttled_once_stamped chrome
              (answering (Resolved (Str "read")) 120) 2000 900000
              "42" "42" (Str "read") new_store) as (Hafter & _ & _).
  { exact chrome_writable. }
  { reflexivity. }
  { reflexivity. }
  destruct (sync_throttled_once_stamped chrome
              (answering (Resolved (Str "read")) 120) 2000 2001
              "42" "42" (Str "read") new_store) as (_ & _ & Hboth).
  { exact chrome_writable. }
  { reflexivity. }
  { reflexivity. }
  split.
  - apply Hafter. vm_compute. discriminate.
  - apply Hboth. reflexivity.
Defined.

(** C8 as stated fails for calls that overlap: two [sync] calls for item 42 at
    times 0 and 1, both within the interval of the reconciliation that the
    first of them completes at time 120, have sent two pulls. *)
Lemma overlapping_syncs_pull_twice :
  localStorage overlapping_syncs !! SYNC_TIMESTAMP_KEY = Some "120" /\
  120 - 0 <= SYNC_INTERVAL /\ 120 - 1 <= SYNC_INTERVAL /\
  network overlapping_syncs = [GET "42"; GET "42"] /\
  ~ (length (network overlapping_syncs) <= 1)%nat.
Proof.
  split; [by vm_compute|]. split; [by vm_compute|]. split; [by vm_compute|].
  split; [by vm_compute|]. vm_compute. lia.
Qed.

Lemma createReadItemsStore_discards_malformed_witness :
  discarded (createReadItemsStore chrome string_stored) /\
  discarded (createReadItemsStore chrome garbage_stored).
Proof.
  split.
  - apply (createReadItemsStore_discards_malformed chrome string_stored
             (Json.stringify (Str "not-an-array"))).
    + exact chrome_browser.
    + reflexivity.
    + reflexivity.
    + vm_compute. reflexivity.
  - apply (createReadItemsStore_discards_malformed chrome garbage_stored
             "not-an-array").
    + exact chrome_browser.
    + reflexivity.
    + reflexivity.
    + vm_compute. exact I.
Defined.

(** C3 as stated fails: after [markRead], [markUnread], [markRead] on item a,
    the late settlement of the first push with another status removes the
    entry, although the latest operation wants the item read. *)
Lemma late_mismatch_overwrites : ~ newest_wins chrome late_mismatch new_store "a".
Proof.
  intros Hwins. specialize (Hwins Read eq_refl). vm_compute in Hwins.
  discriminate Hwins.
Qed.

(** C9 as stated fails on the empty string: it does not deserialize, yet the
    key stays in storage and nothing is logged. *)
Lemma empty_text_kept :
  malformed EmptyString /\
  ~ discarded (createReadItemsStore chrome empty_text_stored).
Proof.
  split; [exact I|].
  intros (_ & Hslot & _). vm_compute in Hslot. discriminate Hslot.
Qed.

(** C1, where the code departs from it. Item 42 waits in the retry queue and
    the last reconciliation is one second old. The drain sends no pull for 42:
    the throttle inside [syncWithBackend] suppresses the retry. *)
Theorem drain_skips_queued_item :
  let drained :=
    processSyncQueue chrome (answering (Resolved (Str "read")) 120) 2000
                     queued_after_recent_sync in
  "42" ∈ syncQueue queued_after_recent_sync /\
  network drained.1 = [].
Proof. split; [apply list_elem_of_here | reflexivity]. Qed.

(** C2, where the code departs from it. Items a and b wait in the retry queue
    and the backend is healthy. The drain pulls a, which closes the throttle;
    b is skipped, no pull for b completes, and b is no longer queued when the
    drain ends. *)
Theorem drain_drops_skipped_item :
  let drained :=
    processSyncQueue chrome (answering (Resolved (Str "read")) 120) 2000
                     two_queued in
  "b" ∈ syncQueue two_queued /\
  network drained.1 = [GET "a"] /\
  "b" ∉ syncQueue drained.1.
Proof.
  split; [|split].
  - apply list_elem_of_further, list_elem_of_here.
  - vm_compute. reflexivity.
  - vm_compute. apply not_elem_of_nil.
Qed.

(** * Further properties of the sources *)

(** ** The map as a list of entries *)

Lemma same_value_zero_eq (a b : Value) : same_value_zero a b = true -> a = b.
Proof.
  destruct a, b; simpl; try done; intros E; apply bool_decide_eq_true_1 in E;
    congruence.
Qed.

Lemma same_value_zero_sym (a b : Value) :
  same_value_zero a b = same_value_zero b a.
Proof.
  destruct a, b; simpl; try done; apply bool_decide_ext; split; congruence.
Qed.

Lemma same_value_zero_other (k0 k k' : Value) :
  same_value_zero k0 k = true -> same_value_zero k k' = false ->
  same_value_zero k0 k' = false.
Proof. by intros ->%same_value_zero_eq. Qed.

Lemma has_app (k : Value) (m1 m2 : JsMap.t) :
  JsMap.has k (m1 ++ m2)%list = JsMap.has k m1 || JsMap.has k m2.
Proof.
  induction m1 as [|[k0 v0] m1 IH]; simpl; [done|].
  by rewrite IH, orb_assoc.
Qed.

Lemma has_set_other (k k' v : Value) (m : JsMap.t) :
  same_value_zero k k' = false ->
  JsMap.has k' (JsMap.set k v m) = JsMap.has k' m.
Proof.
  intros E. induction m as [|[k0 v0] m IH]; simpl.
  - by rewrite E.
  - destruct (same_value_zero k0 k); simpl; by rewrite ?IH.
Qed.

Lemma has_delete_other (k k' : Value) (m : JsMap.t) :
  same_value_zero k k' = false ->
  JsMap.has k' (JsMap.delete k m) = JsMap.has k' m.
Proof.
  intros E. induction m as [|[k0 v0] m IH]; simpl; [done|].
  destruct (same_value_zero k0 k) eqn:E0; simpl; rewrite IH; [|done].
  by rewrite (same_value_zero_other k0 k k' E0 E).
Qed.

Lemma get_set_other (k k' v : Value) (m : JsMap.t) :
  same_value_zero k k' = false ->
  JsMap.get k' (JsMap.set k v m) = JsMap.get k' m.
Proof.
  intros E. induction m as [|[k0 v0] m IH]; simpl.
  - by rewrite E.
  - destruct (same_value_zero k0 k) eqn:E0; simpl.
    + by rewrite (same_value_zero_other k0 k k' E0 E).
    + by rewrite IH.
Qed.

Lemma get_delete_other (k k' : Value) (m : JsMap.t) :
  same_value_zero k k' = false ->
  JsMap.get k' (JsMap.delete k m) = JsMap.get k' m.
Proof.
  intros E. induction m as [|[k0 v0] m IH]; simpl; [done|].
  destruct (same_value_zero k0 k) eqn:E0; simpl; rewrite IH; [|done].
  by rewrite (same_value_zero_other k0 k k' E0 E).
Qed.

Lemma set_absent (k v : Value) (m : JsMap.t) :
  JsMap.has k m = false -> JsMap.set k v m = (m ++ [(k, v)])%list.
Proof.
  induction m as [|[k0 v0] m IH]; simpl; [done|].
  intros [E0 E]%orb_false_elim. rewrite E0. by rewrite IH.
Qed.

Lemma delete_absent (k : Value) (m : JsMap.t) :
  JsMap.has k m = false -> JsMap.delete k m = m.
Proof.
  induction m as [|[k0 v0] m IH]; simpl; [done|].
  intros [E0 E]%orb_false_elim. rewrite E0. by rewrite IH.
Qed.

Lemma delete_set_absent (s : string) (v : Value) (m : JsMap.t) :
  JsMap.has (Str s) m = false ->
  JsMap.delete (Str s) (JsMap.set (Str s) v m) = m.
Proof.
  induction m as [|[k0 v0] m IH]; simpl.
  - by rewrite bool_decide_eq_true_2.
  - intros [E0 E]%orb_false_elim. rewrite E0. simpl. rewrite E0. by rewrite IH.
Qed.

Lemma distinct_set (k v : Value) (m : JsMap.t) :
  JsMap.distinct m -> JsMap.distinct (JsMap.set k v m).
Proof.
  induction m as [|[k0 v0] m IH]; simpl; [done|].
  intros [E0 Hd]. destruct (same_value_zero k0 k) eqn:E; simpl; [done|].
  split; [|by apply IH].
  rewrite has_set_other; [done|]. by rewrite same_value_zero_sym.
Qed.

Lemma distinct_delete (k : Value) (m : JsMap.t) :
  JsMap.distinct m -> JsMap.distinct (JsMap.delete k m).
Proof.
  induction m as [|[k0 v0] m IH]; simpl; [done|].
  intros [E0 Hd]. destruct (same_value_zero k0 k) eqn:E; simpl; [by apply IH|].
  split; [|by apply IH].
  rewrite has_delete_other; [done|]. by rewrite same_value_zero_sym.
Qed.

Lemma distinct_fold_set (l : list (Value * Value)) (acc : JsMap.t) :
  JsMap.distinct acc ->
  JsMap.distinct (fold_left (fun m kv => JsMap.set kv.1 kv.2 m) l acc).
Proof.
  revert acc. induction l as [|[k v] l IH]; intros acc Hd; simpl; [done|].
  by apply IH, distinct_set.
Qed.

Lemma distinct_app_head (a l : JsMap.t) (k v : Value) :
  JsMap.distinct (a ++ (k, v) :: l)%list -> JsMap.has k a = false.
Proof.
  induction a as [|[k0 v0] a IH]; simpl; [done|].
  intros [E Hd]. rewrite has_app in E. simpl in E.
  apply orb_false_elim in E as [_ E]. apply orb_false_elim in E as [E _].
  rewrite (IH Hd), orb_false_r. by rewrite same_value_zero_sym.
Qed.

Lemma fold_set_distinct (l : list (Value * Value)) (acc : JsMap.t) :
  JsMap.distinct (acc ++ l)%list ->
  fold_left (fun m kv => JsMap.set kv.1 kv.2 m) l acc = (acc ++ l)%list.
Proof.
  revert acc. induction l as [|[k v] l IH]; intros acc Hd; simpl.
  - by rewrite app_nil_r.
  - rewrite (set_absent k v acc (distinct_app_head acc l k v Hd)).
    rewrite IH; rewrite <- app_assoc; done.
Qed.

Lemma entries_valid_format (m : JsMap.t) : valid_format (JsMap.entries m) = true.
Proof. unfold JsMap.entries. simpl. by induction m as [|[k v] m IH]. Qed.

Lemma Map_of_array_entries (m : JsMap.t) :
  JsMap.distinct m -> Map_of_array (JsMap.entries m) = m.
Proof.
  intros Hd. unfold Map_of_array, JsMap.entries, JsMap.from_entries.
  cbv beta iota.
  etrans; [|by apply (fold_set_distinct m [])].
  f_equal. clear Hd.
  induction m as [|[k v] m IH]; [done|].
  rewrite !fmap_cons. cbn [index nth fst snd]. by rewrite IH.
Qed.

(** ** Properties kept by every operation *)

Section Stability.

Context `{Platform} (env : Env).
Context (touched : string -> Prop) (P : Store -> Prop).
Context (HP : stable env touched P).

Lemma stable_mark_called (k : Mark) (now : Z) (itemIdOrFeed : ItemIdOrFeed)
    (st : Store) :
  touched (resolve itemIdOrFeed) -> P st -> P (mark_called env k now itemIdOrFeed st).
Proof.
  destruct HP as (Hu & Hs & _). intros Ht Hst. unfold mark_called.
  by apply Hs, Hu.
Qed.

Lemma stable_mark_settled (k : Mark) (now : Z) (itemId : string) (o : Outcome)
    (st : Store) :
  touched itemId -> P st -> P (mark_settled env k now itemId o st).
Proof.
  destruct HP as (Hu & _ & Hl & Hq & _). intros Ht Hst. unfold mark_settled.
  destruct o as [status|]; [case_match; auto|]. by apply Hq, Hl.
Qed.

Lemma stable_step (e : Event) (st : Store) :
  touched (event_item e) -> P st -> P (step env st e).
Proof.
  destruct e; simpl; auto using stable_mark_called, stable_mark_settled.
Qed.

Lemma stable_run (trace : list Event) (st : Store) :
  Forall (fun e => touched (event_item e)) trace -> P st -> P (run env trace st).
Proof.
  unfold run. intros Ht. revert st.
  induction Ht as [|e trace He Ht IH]; intros st Hst; simpl; [done|].
  by apply IH, stable_step.
Qed.

Lemma stable_syncWithBackend (backend : Backend) (now : Z) (itemId : string)
    (st : Store) :
  touched itemId -> P st -> P (syncWithBackend env backend now itemId st).1.
Proof.
  destruct HP as (Hu & Hs & Hl & Hq & Ht & _). intros Hi Hst.
  unfold syncWithBackend, sync_failed.
  destruct (shouldSync env now st); cbn [negb fst]; [|done].
  destruct (outcome _) as [status|]; cbn [fst]; [|by apply Hq, Hl, Hs].
  match goal with
  | |- context [updateSyncTimestamp env ?t ?s] =>
      assert (P s) as Hs' by (repeat case_match; auto);
      destruct (updateSyncTimestamp env t s) as [st'|] eqn:E
  end; cbn [fst].
  - by apply (Ht _ _ _ Hs' E).
  - by apply Hq, Hl.
Qed.

Lemma stable_fold (backend : Backend) (items : list string) (acc : Store * Z) :
  Forall touched items -> P acc.1 ->
  P (fold_left (fun acc j => syncWithBackend env backend acc.2 j acc.1) items acc).1.
Proof.
  intros Ht. revert acc.
  induction Ht as [|j items Hj Ht IH]; intros acc Hacc; simpl; [done|].
  by apply IH, stable_syncWithBackend.
Qed.

Lemma stable_processSyncQueue (backend : Backend) (now : Z) (st : Store) :
  Forall touched (syncQueue st) -> P st ->
  P (processSyncQueue env backend now st).1.
Proof.
  intros Ht Hst. unfold processSyncQueue. apply stable_fold; [done|].
  destruct HP as (_ & _ & _ & _ & _ & Hc). by apply Hc.
Qed.

End Stability.

Section StoreInvariants.

Context `{Platform} (env : Env).

Lemma updateLocalState_readItems (now : Z) (itemId : string) (b : bool)
    (st : Store) :
  readItems (updateLocalState env now itemId b st)
  = if b && negb (JsMap.has (Str itemId) (readItems st))
    then JsMap.set (Str itemId) (Num now) (readItems st)
    else if negb b && JsMap.has (Str itemId) (readItems st)
    then JsMap.delete (Str itemId) (readItems st)
    else readItems st.
Proof. reflexivity. Qed.

Lemma updateSyncTimestamp_frame (now : Z) (st st' : Store) :
  updateSyncTimestamp env now st = Some st' ->
  readItems st' = readItems st /\ syncQueue st' = syncQueue st /\
  network st' = network st /\ console st' = console st /\
  (forall key, key <> SYNC_TIMESTAMP_KEY ->
     localStorage st' !! key = localStorage st !! key) /\
  (has_localStorage env = false -> st' = st).
Proof.
  unfold updateSyncTimestamp. intros E.
  destruct (has_localStorage env); [|by injection E as <-].
  destruct (storage_accepts env _ _); [|done]. injection E as <-. fields.
  repeat split; try done. intros key Hk. by apply lookup_insert_ne.
Qed.

Lemma updateLocalState_distinct (now : Z) (itemId : string) (b : bool)
    (st : Store) :
  JsMap.distinct (readItems st) ->
  JsMap.distinct (readItems (updateLocalState env now itemId b st)).
Proof.
  intros Hd. rewrite updateLocalState_readItems.
  repeat case_match; auto using distinct_set, distinct_delete.
Qed.

Lemma stable_store_wf : stable env (fun _ => True) store_wf.
Proof.
  unfold stable, store_wf. split; [|split; [|split; [|split; [|split]]]].
  - intros now itemId b st _ [Hd Hq]. split.
    + by apply updateLocalState_distinct.
    + by rewrite (proj1 (updateLocalState_frame env now itemId b st)).
  - by intros r st [? ?].
  - by intros e st [? ?].
  - intros itemId st _ [Hd Hq]. split; [done|]. by apply Set_add_NoDup.
  - intros now st st' [Hd Hq] (-> & -> & _)%updateSyncTimestamp_frame. done.
  - intros st [Hd _]. split; [done|]. apply NoDup_nil_2.
Qed.

Lemma stable_persisted :
  browser env -> storage_writable env -> stable env (fun _ => True) (persisted).
Proof.
  intros Hb Hw. unfold stable. split; [|split; [|split; [|split; [|split]]]].
  - intros now itemId b st _ _. by apply updateLocalState_persisted.
  - done.
  - done.
  - done.
  - intros now st st' Hp (Hr & _ & _ & _ & Hls & _)%updateSyncTimestamp_frame.
    unfold persisted in *. rewrite Hr, Hls; [done|]. apply storage_keys_differ.
  - done.
Qed.

Lemma stable_no_storage (ls : gmap string string) :
  has_localStorage env = false ->
  stable env (fun _ => True) (fun st => localStorage st = ls).
Proof.
  intros Hn. unfold stable. split; [|split; [|split; [|split; [|split]]]]; try done.
  - intros now itemId b st _ <-. unfold updateLocalState, saveToLocalStorage.
    unfold localStorage_available. rewrite Hn, andb_false_r. done.
  - intros now st st' <- (_ & _ & _ & _ & _ & Hst)%updateSyncTimestamp_frame.
    by rewrite (Hst Hn).
Qed.

Lemma updateLocalState_get_other (now : Z) (itemId other : string) (b : bool)
    (st : Store) :
  itemId <> other ->
  JsMap.get (Str other) (readItems (updateLocalState env now itemId b st))
  = JsMap.get (Str other) (readItems st).
Proof.
  intros Hne. rewrite updateLocalState_readItems.
  assert (same_value_zero (Str itemId) (Str other) = false)
    by (by apply bool_decide_eq_false_2).
  repeat case_match; auto using get_set_other, get_delete_other.
Qed.

Lemma stable_other (other : string) (v : option Value) :
  stable env (fun itemId => itemId <> other)
         (fun st => JsMap.get (Str other) (readItems st) = v).
Proof.
  unfold stable. split; [|split; [|split; [|split; [|split]]]]; try done.
  - intros now itemId b st Hne <-. by apply updateLocalState_get_other.
  - by intros now st st' <- (-> & _)%updateSyncTimestamp_frame.
Qed.

End StoreInvariants.

(** ** The store as a whole *)

Section StoreAsAWhole.

Context `{Platform} (env : Env).

Lemma Forall_always {A} (l : list A) : Forall (fun _ => True) l.
Proof. by apply Forall_forall. Qed.

Lemma createReadItemsStore_frame (stored : gmap string string) :
  syncQueue (createReadItemsStore env stored) = [] /\
  network (createReadItemsStore env stored) = [] /\
  forall key, key <> READ_ITEMS_STORAGE_KEY ->
    localStorage (createReadItemsStore env stored) !! key = stored !! key.
Proof.
  unfold createReadItemsStore.
  repeat case_match; fields; repeat split; try done;
    intros key Hk; by apply lookup_delete_ne.
Qed.

(** The lists of the store stand for a [Map] and a [Set] from the start and
    after every operation: no key is held twice in the map, also when the
    persisted array names a key twice, and no item is queued twice. *)
Theorem store_wf_kept :
  (forall stored, store_wf (createReadItemsStore env stored)) /\
  (forall st, store_wf st ->
     (forall trace, store_wf (run env trace st)) /\
     (forall backend now itemId, store_wf (sync env backend now itemId st).1) /\
     (forall backend now, store_wf (processSyncQueue env backend now st).1) /\
     store_wf (reset env st)).
Proof.
  split.
  - intros stored. split.
    + unfold createReadItemsStore.
      repeat case_match; fields; try done.
      unfold Map_of_array. case_match; try done.
      by apply distinct_fold_set.
    + rewrite (proj1 (createReadItemsStore_frame stored)). apply NoDup_nil_2.
  - intros st Hwf. split; [|split; [|split]].
    + intros trace. apply (stable_run env _ _ (stable_store_wf env));
        [apply Forall_always | done].
    + intros backend now itemId.
      by apply (stable_syncWithBackend env _ _ (stable_store_wf env)).
    + intros backend now.
      apply (stable_processSyncQueue env _ _ (stable_store_wf env));
        [apply Forall_always | done].
    + split; [done | apply NoDup_nil_2].
Qed.

(** In a browser whose storage takes every write, the read-items slot that
    mirrors the map keeps mirroring it through mark operations in any
    interleaving, through [sync] and through a drain of the queue. *)
Theorem persisted_kept (st : Store) :
  browser env -> storage_writable env -> persisted st ->
  (forall trace, persisted (run env trace st)) /\
  (forall backend now itemId, persisted (sync env backend now itemId st).1) /\
  (forall backend now, persisted (processSyncQueue env backend now st).1).
Proof.
  intros Hb Hw Hp. pose proof (stable_persisted env Hb Hw) as Hst.
  split; [|split].
  - intros trace. apply (stable_run env _ _ Hst); [apply Forall_always | done].
  - intros backend now itemId. by apply (stable_syncWithBackend env _ _ Hst).
  - intros backend now.
    apply (stable_processSyncQueue env _ _ Hst); [apply Forall_always | done].
Qed.

(** What the store saved is what the next start loads. When the read-items
    slot mirrors the map and [JSON.parse] reads the saved text back, a store
    created from that storage has the same map, an empty queue and nothing
    logged, and the storage is untouched. *)
Theorem reload_restores (st : Store) :
  browser env ->
  persisted st ->
  JsMap.distinct (readItems st) ->
  JSON_parse (JSON_stringify (JsMap.entries (readItems st)))
  = Some (JsMap.entries (readItems st)) ->
  truthy (JSON_stringify (JsMap.entries (readItems st))) = true ->
  createReadItemsStore env (localStorage st)
  = mkStore (readItems st) [] (localStorage st) [] [].
Proof.
  intros Hb Hp Hd Hparse Ht. unfold createReadItemsStore.
  rewrite (localStorage_available_browser env Hb), Hp, Ht, Hparse.
  rewrite entries_valid_format. unfold with_readItems. cbn [readItems syncQueue
    localStorage console network]. by rewrite Map_of_array_entries.
Qed.

(** No operation for one item changes the entry of another: mark operations
    in any interleaving, a [sync] of another item, and a drain of a queue that
    does not hold the item leave its entry (presence and timestamp) alone. *)
Theorem other_items_untouched (other : string) (st : Store) :
  (forall trace,
     Forall (fun e => event_item e <> other) trace ->
     JsMap.get (Str other) (readItems (run env trace st))
     = JsMap.get (Str other) (readItems st)) /\
  (forall backend now itemId,
     itemId <> other ->
     JsMap.get (Str other) (readItems (sync env backend now itemId st).1)
     = JsMap.get (Str other) (readItems st)) /\
  (forall backend now,
     other ∉ syncQueue st ->
     JsMap.get (Str other) (readItems (processSyncQueue env backend now st).1)
     = JsMap.get (Str other) (readItems st)).
Proof.
  pose proof (stable_other env other (JsMap.get (Str other) (readItems st)))
    as Hst.
  split; [|split].
  - intros trace Ht. by apply (stable_run env _ _ Hst).
  - intros backend now itemId Hne. by apply (stable_syncWithBackend env _ _ Hst).
  - intros backend now Hout. apply (stable_processSyncQueue env _ _ Hst); [|done].
    apply Forall_forall. intros j Hj ->. done.
Qed.

(** The timestamp of an entry is the time of the [markRead] that created it.
    Marking an unread item read records the current time, and marking it
    unread again gives back the map as it was. Marking a read item unread and
    read again replaces its timestamp by the later time. *)
Theorem updateLocalState_timestamps (now later : Z) (itemId : string)
    (st : Store) :
  (JsMap.has (Str itemId) (readItems st) = false ->
     JsMap.get (Str itemId) (readItems (updateLocalState env now itemId true st))
     = Some (Num now) /\
     readItems (updateLocalState env later itemId false
                  (updateLocalState env now itemId true st))
     = readItems st) /\
  (JsMap.has (Str itemId) (readItems st) = true ->
     JsMap.get (Str itemId)
       (readItems (updateLocalState env later itemId true
                     (updateLocalState env now itemId false st)))
     = Some (Num later)).
Proof.
  split.
  - intros E. split.
    + rewrite updateLocalState_readItems, E. simpl. by apply get_set.
    + rewrite (updateLocalState_readItems env later), updateLocalState_has.
      rewrite updateLocalState_readItems, E. simpl.
      by apply delete_set_absent.
  - intros E. rewrite (updateLocalState_readItems env later), updateLocalState_has.
    cbn [andb negb]. apply get_set. apply updateLocalState_has.
Qed.

End StoreAsAWhole.

(** ** Reconciliation in detail *)

Section Reconciliation.

Context `{Platform} (env : Env).

Lemma shouldSync_ext (now : Z) (st1 st2 : Store) :
  localStorage st1 !! SYNC_TIMESTAMP_KEY = localStorage st2 !! SYNC_TIMESTAMP_KEY ->
  shouldSync env now st1 = shouldSync env now st2.
Proof. intros E. unfold shouldSync. by rewrite E. Qed.

Lemma drain_fold_skipped (backend : Backend) (now : Z) (items : list string)
    (st : Store) :
  shouldSync env now st = false ->
  fold_left (fun acc j => syncWithBackend env backend acc.2 j acc.1) items (st, now)
  = (st, now).
Proof.
  intros Hs. induction items as [|j items IH]; [done|].
  simpl. by rewrite (syncWithBackend_skipped env backend now j st Hs).
Qed.

(** One call of [syncWithBackend] either sends nothing and leaves the queue,
    or sends one pull for its item and may queue that item. *)
Lemma syncWithBackend_pulled (backend : Backend) (now : Z) (j : string)
    (st : Store) :
  let d := syncWithBackend env backend now j st in
  (network d.1 = network st /\ syncQueue d.1 = syncQueue st) \/
  (network d.1 = (network st ++ [GET j])%list /\
   forall id, id ∈ syncQueue d.1 -> id ∈ syncQueue st \/ id = j).
Proof.
  intros d. subst d. unfold syncWithBackend.
  destruct (shouldSync env now st); cbn [negb fst]; [|by left].
  right. destruct (outcome _) as [status|]; cbn [fst].
  - match goal with
    | |- context [updateSyncTimestamp env ?t ?s] =>
        assert (network s = (network st ++ [GET j])%list /\
                syncQueue s = syncQueue st) as [Hn Hq]
          by (repeat case_match;
              rewrite ?(proj1 (updateLocalState_frame env _ _ _ _)),
                ?(proj2 (updateLocalState_frame env _ _ _ _)); done);
        destruct (updateSyncTimestamp env t s) as [st'|] eqn:E
    end; cbn [fst].
    + apply updateSyncTimestamp_frame in E as (_ & -> & -> & _).
      rewrite Hn, Hq. split; [done|]. by left.
    + unfold sync_failed. fields. rewrite Hn, Hq. split; [done|].
      intros id [->|?]%elem_of_Set_add; [by right | by left].
  - unfold sync_failed. fields. split; [done|].
    intros id [->|?]%elem_of_Set_add; [by right | by left].
Qed.

Lemma drain_fold_pulled (backend : Backend) (items : list string)
    (acc : Store * Z) :
  let d := fold_left (fun acc j => syncWithBackend env backend acc.2 j acc.1)
                     items acc in
  exists pulled,
    sublist pulled items /\
    network d.1 = (network acc.1 ++ (GET <$> pulled))%list /\
    forall id, id ∈ syncQueue d.1 -> id ∈ syncQueue acc.1 \/ id ∈ pulled.
Proof.
  revert acc. induction items as [|j items IH]; intros acc; simpl.
  - exists []. split; [constructor|]. split; [by rewrite app_nil_r | by left].
  - destruct (IH (syncWithBackend env backend acc.2 j acc.1))
      as (pulled & Hsub & Hn & Hq).
    destruct (syncWithBackend_pulled backend acc.2 j acc.1)
      as [[Hn1 Hq1]|[Hn1 Hq1]].
    + exists pulled. split; [by apply sublist_cons|].
      rewrite Hn, Hn1. split; [done|]. intros id Hid.
      destruct (Hq id Hid) as [Hin|Hin]; [left; by rewrite <- Hq1 | by right].
    + exists (j :: pulled). split; [by apply sublist_skip|].
      rewrite Hn, Hn1, fmap_cons, <- app_assoc. split; [done|]. intros id Hid.
      destruct (Hq id Hid) as [Hin|Hin].
      * destruct (Hq1 id Hin) as [?| ->]; [by left | right; apply list_elem_of_here].
      * right. by apply list_elem_of_further.
Qed.

(** With the throttle closed when a drain starts, the drain only empties the
    queue: it sends nothing, changes neither map nor storage, logs nothing,
    and takes no time. *)
Theorem drain_with_closed_throttle (backend : Backend) (now : Z) (st : Store) :
  shouldSync env now st = false ->
  let d := processSyncQueue env backend now st in
  syncQueue d.1 = [] /\ network d.1 = network st /\
  readItems d.1 = readItems st /\ localStorage d.1 = localStorage st /\
  console d.1 = console st /\ d.2 = now.
Proof.
  intros Hs d. subst d. by rewrite (drain_throttled env backend now st Hs).
Qed.

(** With the throttle open when a drain starts and a pull for the first
    queued item that resolves, the drain is that one [syncWithBackend]: the
    timestamp it writes closes the throttle for the items behind it, which are
    neither pulled nor queued again. *)
Theorem drain_single_pull (backend : Backend) (now : Z) (j : string)
    (rest : list string) (status : Value) (st : Store) :
  storage_writable env ->
  syncQueue st = j :: rest ->
  shouldSync env now st = true ->
  outcome (getFeedReadStatus backend j now) = Resolved status ->
  let d := processSyncQueue env backend now st in
  d = syncWithBackend env backend now j (with_syncQueue [] st) /\
  syncQueue d.1 = [] /\
  network d.1 = (network st ++ [GET j])%list.
Proof.
  intros Hw Hq Hs Ho d. subst d. unfold processSyncQueue. rewrite Hq. simpl.
  destruct (syncWithBackend_resolved env backend now j status
              (with_syncQueue [] st) Hw Hs Ho) as (Ht & Hls & Hn & Hq').
  destruct (syncWithBackend env backend now j (with_syncQueue [] st))
    as [st1 t1] eqn:E. cbn [fst snd] in *.
  rewrite drain_fold_skipped; [done|].
  apply (shouldSync_recent env t1 t1 st1 Hls). unfold SYNC_INTERVAL. lia.
Qed.

(** A drain sends pulls only: one [GET] for each item of a sublist of the
    queue, in queue order. An item is queued when the drain ends only if its
    pull was among them. *)
Theorem drain_requeues_only_pulled (backend : Backend) (now : Z) (st : Store) :
  let d := processSyncQueue env backend now st in
  exists pulled,
    sublist pulled (syncQueue st) /\
    network d.1 = (network st ++ (GET <$> pulled))%list /\
    forall id, id ∈ syncQueue d.1 -> id ∈ pulled.
Proof.
  intros d. subst d. unfold processSyncQueue.
  destruct (drain_fold_pulled backend (syncQueue st) (with_syncQueue [] st, now))
    as (pulled & Hsub & Hn & Hq).
  exists pulled. split; [done|]. split; [done|].
  intros id Hid. destruct (Hq id Hid) as [Hin|Hin]; [|done].
  by apply elem_of_nil in Hin.
Qed.

(** A [sync] that fails, because the pull rejects or because the storage
    refuses the timestamp after the pull, puts the item into the queue and
    leaves the sync timestamp as it was: the failure does not close the
    throttle for a later call. *)
Theorem sync_failure_keeps_throttle (backend : Backend) (now : Z)
    (itemId : string) (st : Store) :
  shouldSync env now st = true ->
  outcome (getFeedReadStatus backend itemId now) = Rejected \/
  storage_accepts env SYNC_TIMESTAMP_KEY
    (Number_toString (settled_at (getFeedReadStatus backend itemId now))) = false ->
  let d := sync env backend now itemId st in
  itemId ∈ syncQueue d.1 /\
  network d.1 = (network st ++ [GET itemId])%list /\
  localStorage d.1 !! SYNC_TIMESTAMP_KEY = localStorage st !! SYNC_TIMESTAMP_KEY /\
  forall later, shouldSync env later d.1 = shouldSync env later st.
Proof.
  intros Hs Hfail d. subst d. unfold sync.
  assert (itemId ∈ syncQueue (syncWithBackend env backend now itemId st).1 /\
          network (syncWithBackend env backend now itemId st).1
          = (network st ++ [GET itemId])%list /\
          localStorage (syncWithBackend env backend now itemId st).1
            !! SYNC_TIMESTAMP_KEY
          = localStorage st !! SYNC_TIMESTAMP_KEY) as (Hq & Hn & Hls).
  { unfold syncWithBackend. rewrite Hs. cbn [negb].
    destruct (outcome (getFeedReadStatus backend itemId now)) as [status|] eqn:Ho.
    - destruct Hfail as [?|Hfull]; [done|].
      unfold updateSyncTimestamp.
      rewrite (shouldSync_localStorage env _ _ Hs), Hfull. cbn [fst].
      unfold sync_failed. fields. split; [apply elem_of_Set_add; by left|].
      repeat case_match;
        rewrite ?(proj2 (updateLocalState_frame env _ _ _ _)),
          ?updateLocalState_sync_slot; done.
    - cbn [fst]. unfold sync_failed. fields.
      split; [apply elem_of_Set_add; by left | done]. }
  split; [done|]. split; [done|]. split; [done|].
  intros later. by apply shouldSync_ext.
Qed.


(** The timestamp a reconciliation writes sets the throttle: after
    [updateSyncTimestamp] at time [stamp] in a browser, [shouldSync] answers
    true exactly at the times more than [SYNC_INTERVAL] after [stamp]. On any
    store the throttle, once open, stays open at every later time as long as
    storage is not written. *)
Theorem stamp_sets_throttle (stamp : Z) (st st' : Store) :
  browser env ->
  updateSyncTimestamp env stamp st = Some st' ->
  (forall now, shouldSync env now st' = bool_decide (now - stamp > SYNC_INTERVAL)) /\
  (forall now later (any : Store),
     now <= later -> shouldSync env now any = true ->
     shouldSync env later any = true).
Proof.
  intros [Hwin Hls] Hstamp. split.
  - intros now. unfold updateSyncTimestamp in Hstamp. rewrite Hls in Hstamp.
    destruct (storage_accepts env _ _); [|done]. injection Hstamp as <-.
    unfold shouldSync. rewrite Hwin, Hls. fields.
    by rewrite lookup_insert_eq, Number_toString_truthy, Number_toString_inv.
  - intros now later any Hle. unfold shouldSync.
    repeat case_match; try done.
    intros Hopen%bool_decide_eq_true_1. apply bool_decide_eq_true_2. lia.
Qed.

End Reconciliation.

(** ** Storage at the edges *)

Section StorageEdges.

Context `{Platform} (env : Env).

(** Creating the store never writes to storage and starts nothing: every key
    but the read-items key is as it was, the read-items slot is kept or
    removed, the queue is empty and nothing is sent. Without storage, or
    without the read-items key, the store is the fresh one over the storage
    as given. *)
Theorem createReadItemsStore_touches_one_key (stored : gmap string string) :
  let st := createReadItemsStore env stored in
  (forall key, key <> READ_ITEMS_STORAGE_KEY -> localStorage st !! key = stored !! key) /\
  (localStorage st !! READ_ITEMS_STORAGE_KEY = stored !! READ_ITEMS_STORAGE_KEY \/
   localStorage st !! READ_ITEMS_STORAGE_KEY = None) /\
  syncQueue st = [] /\ network st = [] /\
  (localStorage_available env = false \/ stored !! READ_ITEMS_STORAGE_KEY = None ->
     st = mkStore JsMap.empty [] stored [] []).
Proof.
  intros st. subst st.
  destruct (createReadItemsStore_frame env stored) as (Hq & Hn & Hls).
  split; [done|]. split; [|split; [done|split; [done|]]].
  - unfold createReadItemsStore.
    repeat case_match; fields; rewrite ?lookup_delete_eq; auto.
  - unfold createReadItemsStore. intros [-> | ->]; [done|]. by case_match.
Qed.

(** Where [localStorage] is not defined no operation touches storage and no
    request is ever sent for a pull: mark operations change the map only,
    [sync] returns the store as it got it, a drain only empties the queue. *)
Theorem without_storage (st : Store) :
  has_localStorage env = false ->
  (forall trace, localStorage (run env trace st) = localStorage st) /\
  (forall backend now itemId, sync env backend now itemId st = (st, now)) /\
  (forall backend now,
     processSyncQueue env backend now st = (with_syncQueue [] st, now)) /\
  localStorage (reset env st) = localStorage st /\
  (forall stored, createReadItemsStore env stored = mkStore JsMap.empty [] stored [] []).
Proof.
  intros Hn.
  assert (forall now st0, shouldSync env now st0 = false) as Hs.
  { intros now st0. unfold shouldSync. by rewrite Hn, orb_true_r. }
  assert (localStorage_available env = false) as Ha.
  { unfold localStorage_available. by rewrite Hn, andb_false_r. }
  split; [|split; [|split; [|split]]].
  - intros trace.
    apply (stable_run env _ _ (stable_no_storage env (localStorage st) Hn));
      [by apply Forall_forall | done].
  - intros backend now itemId. by apply syncWithBackend_skipped.
  - intros backend now. unfold processSyncQueue. by apply drain_fold_skipped.
  - unfold reset. by rewrite Ha.
  - intros stored. unfold createReadItemsStore. by rewrite Ha.
Qed.

(** When the storage refuses the write of the map (quota), the local update
    still takes place: the item is read or unread as asked, storage is as it
    was, and the failure is logged once. *)
Theorem updateLocalState_save_refused (now : Z) (itemId : string) (b : bool)
    (st : Store) :
  browser env ->
  (forall text, storage_accepts env READ_ITEMS_STORAGE_KEY text = false) ->
  let st' := updateLocalState env now itemId b st in
  JsMap.has (Str itemId) (readItems st') = b /\
  localStorage st' = localStorage st /\
  console st' = (console st ++ [(Error, "Failed to save read items to localStorage:")])%list.
Proof.
  intros Hb Hfull st'. subst st'. split; [apply updateLocalState_has|].
  unfold updateLocalState, saveToLocalStorage.
  rewrite (localStorage_available_browser env Hb), Hfull. by fields.
Qed.

(** After [reset] every item is unread, the queue is empty, and in a browser
    both storage keys are gone, so the throttle is open again at any time.
    Other keys of the storage are not touched, and a second [reset] changes
    nothing. *)
Theorem reset_clears (st : Store) :
  let st' := reset env st in
  (forall itemIdOrFeed, isRead itemIdOrFeed (readItems st') = false) /\
  syncQueue st' = [] /\
  (browser env ->
     localStorage st' !! READ_ITEMS_STORAGE_KEY = None /\
     localStorage st' !! SYNC_TIMESTAMP_KEY = None /\
     forall now, shouldSync env now st' = true) /\
  (forall key, key <> READ_ITEMS_STORAGE_KEY -> key <> SYNC_TIMESTAMP_KEY ->
     localStorage st' !! key = localStorage st !! key) /\
  reset env st' = st'.
Proof.
  intros st'. subst st'. unfold reset. fields.
  split; [done|]. split; [done|]. split; [|split].
  - intros Hb. rewrite (localStorage_available_browser env Hb).
    assert (delete SYNC_TIMESTAMP_KEY
              (delete READ_ITEMS_STORAGE_KEY (localStorage st))
            !! SYNC_TIMESTAMP_KEY = None) as Hsync by apply lookup_delete_eq.
    split; [|split; [done|]].
    + rewrite lookup_delete_ne by (symmetry; apply storage_keys_differ).
      apply lookup_delete_eq.
    + intros now. unfold shouldSync. fields.
      destruct Hb as [-> ->]. by rewrite Hsync.
  - intros key Hr Hs. case_match; [|done].
    by rewrite !lookup_delete_ne.
  - case_match; [|done]. f_equal.
    rewrite (delete_delete (delete _ _) READ_ITEMS_STORAGE_KEY).
    by rewrite !delete_delete_eq.
Qed.

End StorageEdges.

(** ** feedUtils *)

Lemma string_app_assoc (a b c : string) : (a ++ b) ++ c = a ++ b ++ c.
Proof.
  induction a as [|x a IH]; [reflexivity|].
  change (String x ((a ++ b) ++ c) = String x (a ++ b ++ c)). by rewrite IH.
Qed.

Lemma Array_sort_pair (k1 k2 : string) :
  String.le k1 k2 -> Array_sort [k1; k2] = [k1; k2].
Proof.
  intros Hle. apply Array_sort_unique; [|done].
  repeat constructor. done.
Qed.

(** The canonical string does not separate a value from the pairs behind it:
    an item with the one label [k1] whose value spells [v1&k2=v2] and an item
    with the two labels [k1], [k2] have the same canonical string, and so the
    same item id under any hash. *)
Theorem combinedString_ambiguous `{Platform} (k1 k2 v1 v2 time : string) :
  String.le k1 k2 -> k1 <> k2 ->
  combinedString [(k1, v1 ++ "&" ++ k2 ++ "=" ++ v2)]
  = combinedString [(k1, v1); (k2, v2)] /\
  getFeedItemId (mkFeedVO None [(k1, v1 ++ "&" ++ k2 ++ "=" ++ v2)] time)
  = getFeedItemId (mkFeedVO None [(k1, v1); (k2, v2)] time).
Proof.
  intros Hle Hne.
  assert (combinedString [(k1, v1 ++ "&" ++ k2 ++ "=" ++ v2)]
          = combinedString [(k1, v1); (k2, v2)]) as E.
  { unfold combinedString, Object_keys. simpl fmap at 2 4.
    rewrite (Array_sort_pair k1 k2 Hle).
    unfold Array_sort. simpl. unfold label_at. simpl.
    rewrite !decide_True by done. rewrite (decide_False (P := k1 = k2)) by done.
    rewrite decide_True by done.
    by rewrite !string_app_assoc. }
  split; [done|]. unfold getFeedItemId. simpl. by rewrite E.
Qed.

(** [compareFeeds] is a consistent comparator in one respect: whenever
    [localeCompare] answers opposite signs for swapped arguments, so does
    [compareFeeds], also with invalid dates. The more recent item comes
    first, and an item whose time is not a date is compared with any other by
    title alone. *)
Theorem compareFeeds_antisymmetric (Date_valueOf : string -> option Z)
    (localeCompare : string -> string -> Z) (a b : FeedVO) :
  (forall x y, localeCompare x y = - localeCompare y x) ->
  compareFeeds Date_valueOf localeCompare a b
  = - compareFeeds Date_valueOf localeCompare b a /\
  (forall x y, Date_valueOf (feed_time a) = Some x ->
     Date_valueOf (feed_time b) = Some y -> x > y ->
     compareFeeds Date_valueOf localeCompare a b = -1) /\
  (Date_valueOf (feed_time a) = None \/ Date_valueOf (feed_time b) = None ->
     compareFeeds Date_valueOf localeCompare a b
     = localeCompare (title_or_empty a) (title_or_empty b)).
Proof.
  intros Hanti. unfold compareFeeds, Date_gt.
  split; [|split].
  - destruct (Date_valueOf (feed_time a)) as [x|],
      (Date_valueOf (feed_time b)) as [y|]; try apply Hanti.
    repeat case_bool_decide; try lia; done.
  - intros x y -> -> Hxy. case_bool_decide; [done | lia].
  - intros [-> | ->].
    + by destruct (Date_valueOf (feed_time b)).
    + by destruct (Date_valueOf (feed_time a)).
Qed.

(** ** Loading and the latest call *)

Lemma get_set_same (s : string) (v : Value) (m : JsMap.t) :
  JsMap.get (Str s) (JsMap.set (Str s) v m) = Some v.
Proof.
  induction m as [|[k0 v0] m IH]; simpl.
  - by rewrite bool_decide_eq_true_2.
  - destruct (same_value_zero k0 (Str s)) eqn:E; simpl; by rewrite E.
Qed.

Lemma has_get (k : Value) (m : JsMap.t) :
  JsMap.has k m = match JsMap.get k m with Some _ => true | None => false end.
Proof.
  induction m as [|[k0 v0] m IH]; simpl; [done|].
  by destruct (same_value_zero k0 k).
Qed.

Lemma run_app `{Platform} (env : Env) (t1 t2 : list Event) (st : Store) :
  run env (t1 ++ t2) st = run env t2 (run env t1 st).
Proof. unfold run. apply fold_left_app. Qed.

Lemma run_cons `{Platform} (env : Env) (e : Event) (t : list Event) (st : Store) :
  run env (e :: t) st = run env t (step env st e).
Proof. reflexivity. Qed.

(** Setting other keys leaves the value of a key alone. *)
Lemma fold_set_other (s : string) (entries : list (Value * Value))
    (acc : JsMap.t) :
  Forall (fun kv => kv.1 <> Str s) entries ->
  JsMap.get (Str s) (fold_left (fun m kv => JsMap.set kv.1 kv.2 m) entries acc)
  = JsMap.get (Str s) acc.
Proof.
  intros He. revert acc.
  induction He as [|[k v] entries Hk He IH]; intros acc; simpl; [done|].
  rewrite IH. apply get_set_other.
  destruct (same_value_zero k (Str s)) eqn:E; [|done].
  by apply same_value_zero_eq in E.
Qed.

(** Loading a persisted array of pairs: for each string key, the pair that
    names it last, wherever it stands in the array and whether or not earlier
    pairs name the same key, gives the value the store starts with. The
    storage is kept and nothing is logged. *)
Theorem load_last_pair_wins `{Platform} (env : Env)
    (stored : gmap string string) (text s : string) (v : Value)
    (earlier later : list Value) :
  browser env ->
  stored !! READ_ITEMS_STORAGE_KEY = Some text ->
  truthy text = true ->
  JSON_parse text = Some (Arr (earlier ++ Arr [Str s; v] :: later)) ->
  forallb is_pair earlier = true ->
  forallb is_pair later = true ->
  Forall (fun e => index e 0 <> Str s) later ->
  let st := createReadItemsStore env stored in
  JsMap.get (Str s) (readItems st) = Some v /\
  localStorage st = stored /\ console st = [].
Proof.
  intros Hb Hs Ht Hp Hearlier Hlater Hlast st. subst st.
  unfold createReadItemsStore.
  rewrite (localStorage_available_browser env Hb), Hs, Ht, Hp.
  assert (valid_format (Arr (earlier ++ Arr [Str s; v] :: later)) = true) as ->.
  { simpl. rewrite forallb_app. simpl. by rewrite Hearlier, Hlater. }
  fields. split; [|done].
  unfold Map_of_array, JsMap.from_entries.
  rewrite fmap_app, fold_left_app, fmap_cons. simpl fold_left.
  rewrite fold_set_other; [apply get_set_same|].
  apply Forall_fmap. by eapply Forall_impl; [exact Hlast|].
Qed.

(** Right after a mark operation is called, and as long as only events of
    other items follow, the item is read or unread as that call asked,
    whatever happened before it. *)
Theorem latest_call_decides `{Platform} (env : Env) (k : Mark)
    (itemIdOrFeed : ItemIdOrFeed) (now : Z) (before after : list Event)
    (st : Store) :
  Forall (fun e => event_item e <> resolve itemIdOrFeed) after ->
  isRead itemIdOrFeed
    (readItems (run env (before ++ Called k itemIdOrFeed now :: after) st))
  = wants_read k.
Proof.
  intros Hafter. unfold isRead.
  rewrite run_app, run_cons, has_get.
  rewrite (stable_run env _ _
             (stable_other env (resolve itemIdOrFeed)
                (JsMap.get (Str (resolve itemIdOrFeed))
                   (readItems (step env (run env before st)
                                 (Called k itemIdOrFeed now)))))
             after _ Hafter eq_refl).
  rewrite <- has_get. cbn [step]. unfold mark_called. fields.
  apply updateLocalState_has.
Qed.

(** Events of other items leave the read state of an item alone. *)
Lemma run_has_other `{Platform} (env : Env) (itemId : string)
    (trace : list Event) (st : Store) :
  Forall (fun e => event_item e <> itemId) trace ->
  JsMap.has (Str itemId) (readItems (run env trace st))
  = JsMap.has (Str itemId) (readItems st).
Proof.
  intros Ht. rewrite !has_get.
  by rewrite (stable_run env _ _
                (stable_other env itemId (JsMap.get (Str itemId) (readItems st)))
                trace st Ht eq_refl).
Qed.

(** C3, as the code has it. A mark operation updates the map in the turn in
    which it is called, and events of other items do not undo that. When the
    push of an earlier operation [k] on the item settles after a newer
    operation, the code compares the confirmed status with the status [k]
    asked for, not with what the newer operation wants. If the two are equal,
    or the push throws, the map stays as it is and the newer operation
    decides. If they differ, the opposite of [k]'s request is applied to the
    map as it is then: the newer state stays when the newer operation is the
    opposite of [k], and is overwritten when it asked the same as [k]. The
    facts about the settlement hold on any store [cur]. *)
Theorem late_settlement_compares_own_request `{Platform} (env : Env)
    (k newer : Mark) (itemIdOrFeed : ItemIdOrFeed) (now later : Z) (o : Outcome)
    (between : list Event) (st cur : Store) :
  Forall (fun e => event_item e <> resolve itemIdOrFeed) between ->
  let itemId := resolve itemIdOrFeed in
  let issued := mark_called env newer now itemIdOrFeed st in
  let current := run env between issued in
  let st' := mark_settled env k later itemId o current in
  (isRead itemIdOrFeed (readItems issued) = wants_read newer /\
   isRead itemIdOrFeed (readItems current) = wants_read newer) /\
  isRead itemIdOrFeed (readItems st')
  = match o with
    | Resolved status =>
        if is_string status (status_of k) then wants_read newer
        else negb (wants_read k)
    | Rejected => wants_read newer
    end /\
  (newer <> k -> readItems st' = readItems current) /\
  (let settled := mark_settled env k later itemId o cur in
   (forall status, o = Resolved status ->
      is_string status (status_of k) = true -> settled = cur) /\
   (o = Rejected -> readItems settled = readItems cur) /\
   (forall status, o = Resolved status ->
      is_string status (status_of k) = false ->
      settled = updateLocalState env later itemId (negb (wants_read k)) cur /\
      JsMap.has (Str itemId) (readItems settled) = negb (wants_read k)) /\
   (JsMap.has (Str itemId) (readItems cur) = negb (wants_read k) ->
      readItems settled = readItems cur)).
Proof.
  intros Hbetween itemId issued current st'.
  assert (JsMap.has (Str itemId) (readItems issued) = wants_read newer) as Hissued.
  { subst issued. unfold mark_called. fields. apply updateLocalState_has. }
  assert (JsMap.has (Str itemId) (readItems current) = wants_read newer) as Hcur.
  { subst current. by rewrite run_has_other. }
  assert (forall c,
            JsMap.has (Str itemId) (readItems c) = negb (wants_read k) ->
            readItems (mark_settled env k later itemId o c) = readItems c) as Hkeep.
  { intros c E. unfold mark_settled. destruct o as [status|]; [|done].
    destruct (is_string status (status_of k)); cbn [negb]; [done|].
    by apply updateLocalState_same. }
  split; [done|]. split; [|split; [|split; [|split; [|split]]]].
  - subst st'. unfold isRead, mark_settled. fold itemId.
    destruct o as [status|]; [|done].
    destruct (is_string status (status_of k)); cbn [negb]; [done|].
    apply updateLocalState_has.
  - intros Hne. apply Hkeep. rewrite Hcur. by destruct newer, k.
  - intros status -> E. unfold mark_settled. by rewrite E.
  - by intros ->.
  - intros status -> E. unfold mark_settled. rewrite E. cbn [negb].
    split; [done|]. apply updateLocalState_has.
  - apply Hkeep.
Qed.

(** ** The further properties on the scenarios *)

Lemma busy_store_wf : store_wf busy_store.
Proof.
  split; [by vm_compute|]. apply (bool_decide_unpack _). by vm_compute.
Qed.

Lemma store_wf_kept_witness :
  store_wf (run chrome late_mismatch busy_store) /\
  store_wf (processSyncQueue chrome (answering Rejected 120) 2000 busy_store).1.
Proof.
  destruct (proj2 (store_wf_kept chrome) busy_store busy_store_wf)
    as (Hrun & _ & Hdrain & _).
  split; [apply Hrun | apply Hdrain].
Defined.

Lemma persisted_kept_witness :
  persisted (run chrome late_mismatch busy_store).
Proof.
  apply (persisted_kept chrome busy_store).
  - exact chrome_browser.
  - exact chrome_writable.
  - vm_compute. reflexivity.
Defined.

Lemma reload_restores_witness :
  createReadItemsStore chrome (localStorage busy_store)
  = mkStore (readItems busy_store) [] (localStorage busy_store) [] [].
Proof.
  apply (reload_restores chrome busy_store).
  - exact chrome_browser.
  - vm_compute. reflexivity.
  - by vm_compute.
  - vm_compute. reflexivity.
  - vm_compute. reflexivity.
Defined.

Lemma other_items_untouched_witness :
  JsMap.get (Str "b") (readItems (run chrome late_mismatch busy_store))
  = JsMap.get (Str "b") (readItems busy_store) /\
  JsMap.get (Str "b")
    (readItems
       (processSyncQueue chrome (answering (Resolved (Str "unread")) 120) 2000
          busy_store).1)
  = JsMap.get (Str "b") (readItems busy_store).
Proof.
  destruct (other_items_untouched chrome "b" busy_store) as (Hrun & _ & Hdrain).
  split.
  - apply Hrun. repeat constructor; discriminate.
  - apply Hdrain. apply (bool_decide_unpack _). by vm_compute.
Defined.

Lemma updateLocalState_timestamps_witness :
  JsMap.get (Str "a") (readItems (updateLocalState chrome 7 "a" true new_store))
  = Some (Num 7) /\
  JsMap.get (Str "a")
    (readItems (updateLocalState chrome 9 "a" true
                  (updateLocalState chrome 7 "a" false a_read)))
  = Some (Num 9).
Proof.
  split.
  - destruct (updateLocalState_timestamps chrome 7 9 "a" new_store) as (Hnew & _).
    apply Hnew. reflexivity.
  - destruct (updateLocalState_timestamps chrome 7 9 "a" a_read) as (_ & Hagain).
    apply Hagain. reflexivity.
Defined.

Lemma drain_with_closed_throttle_witness :
  syncQueue
    (processSyncQueue chrome (answering Rejected 120) 2000
       queued_after_recent_sync).1 = [].
Proof.
  apply (drain_with_closed_throttle chrome (answering Rejected 120) 2000
           queued_after_recent_sync).
  reflexivity.
Defined.

Lemma drain_single_pull_witness :
  network
    (processSyncQueue chrome (answering (Resolved (Str "deleted")) 120) 2000
       two_queued).1 = [GET "a"].
Proof.
  apply (drain_single_pull chrome (answering (Resolved (Str "deleted")) 120) 2000
           "a" ["b"] (Str "deleted") two_queued).
  - exact chrome_writable.
  - reflexivity.
  - reflexivity.
  - reflexivity.
Defined.

Lemma sync_failure_keeps_throttle_witness :
  "42" ∈ syncQueue (sync chrome (answering Rejected 120) 2000 "42" new_store).1 /\
  "42" ∈ syncQueue
    (sync full_storage (answering (Resolved (Str "read")) 120) 2000 "42"
       new_store).1.
Proof.
  split.
  - apply (sync_failure_keeps_throttle chrome (answering Rejected 120) 2000 "42"
             new_store); [reflexivity | left; reflexivity].
  - apply (sync_failure_keeps_throttle full_storage
             (answering (Resolved (Str "read")) 120) 2000 "42" new_store);
      [reflexivity | right; reflexivity].
Defined.


Lemma createReadItemsStore_touches_one_key_witness :
  localStorage (createReadItemsStore chrome (localStorage bad_stamp))
    !! SYNC_TIMESTAMP_KEY = Some "yesterday" /\
  createReadItemsStore chrome (localStorage bad_stamp)
  = mkStore JsMap.empty [] (localStorage bad_stamp) [] [].
Proof.
  destruct (createReadItemsStore_touches_one_key chrome (localStorage bad_stamp))
    as (Hother & _ & _ & _ & Hfresh).
  split.
  - rewrite Hother; [reflexivity | discriminate].
  - apply Hfresh. right. reflexivity.
Defined.

Lemma without_storage_witness :
  sync server (answering (Resolved (Str "read")) 120) 2000 "42" busy_store
  = (busy_store, 2000).
Proof.
  apply (without_storage server busy_store). reflexivity.
Defined.

Lemma updateLocalState_save_refused_witness :
  let st' := updateLocalState full_storage 7 "a" true new_store in
  JsMap.has (Str "a") (readItems st') = true /\ localStorage st' = ∅.
Proof.
  destruct (updateLocalState_save_refused full_storage 7 "a" true new_store)
    as (Hread & Hls & _).
  - by split.
  - intros text. reflexivity.
  - split; [exact Hread | exact Hls].
Defined.

Lemma reset_clears_witness :
  localStorage (reset chrome busy_store) !! READ_ITEMS_STORAGE_KEY = None /\
  shouldSync chrome 0 (reset chrome queued_after_recent_sync) = true.
Proof.
  split.
  - destruct (reset_clears chrome busy_store) as (_ & _ & Hkeys & _).
    apply (Hkeys chrome_browser).
  - destruct (reset_clears chrome queued_after_recent_sync) as (_ & _ & Hkeys & _).
    apply (Hkeys chrome_browser).
Defined.

Lemma combinedString_ambiguous_witness :
  combinedString [("a", "1&b=2")] = combinedString [("a", "1"); ("b", "2")].
Proof.
  apply (combinedString_ambiguous "a" "b" "1" "2" "t").
  - by vm_compute.
  - discriminate.
Defined.

Lemma compare_code_units_antisym (x y : string) :
  compare_code_units x y = - compare_code_units y x.
Proof.
  unfold compare_code_units. rewrite (String.compare_antisym y x).
  by destruct (String.compare x y).
Qed.

Lemma compareFeeds_antisymmetric_witness :
  compareFeeds two_dates compare_code_units
    (mkFeedVO None [("title", "B")] "2024-01-02T00:00:00Z")
    (mkFeedVO None [("title", "A")] "2024-01-01T00:00:00Z")
  = - compareFeeds two_dates compare_code_units
        (mkFeedVO None [("title", "A")] "2024-01-01T00:00:00Z")
        (mkFeedVO None [("title", "B")] "2024-01-02T00:00:00Z").
Proof.
  apply (compareFeeds_antisymmetric two_dates compare_code_units).
  exact compare_code_units_antisym.
Defined.

Lemma load_last_pair_wins_witness :
  JsMap.get (Str "a")
    (readItems
       (createReadItemsStore chrome
          {[ READ_ITEMS_STORAGE_KEY :=
               Json.stringify (Arr [Arr [Str "a"; Num 5]; Arr [Str "a"; Num 7];
                                    Arr [Str "b"; Num 6]]) ]}))
  = Some (Num 7).
Proof.
  apply (load_last_pair_wins chrome _
           (Json.stringify (Arr [Arr [Str "a"; Num 5]; Arr [Str "a"; Num 7];
                                 Arr [Str "b"; Num 6]]))
           "a" (Num 7) [Arr [Str "a"; Num 5]] [Arr [Str "b"; Num 6]]).
  - exact chrome_browser.
  - reflexivity.
  - reflexivity.
  - vm_compute. reflexivity.
  - reflexivity.
  - reflexivity.
  - repeat constructor. discriminate.
Defined.

Lemma latest_call_decides_witness :
  isRead (ItemId "a") (readItems (run chrome (take 3 late_mismatch) new_store))
  = true.
Proof.
  apply (latest_call_decides chrome Read (ItemId "a") 3
           [Called Read (ItemId "a") 1; Called Unread (ItemId "a") 2] []
           new_store).
  constructor.
Defined.

Lemma late_settlement_compares_own_request_witness :
  let st := run chrome (take 2 late_mismatch) new_store in
  let between := [Called Read (ItemId "b") 4] in
  isRead (ItemId "a")
    (readItems
       (mark_settled chrome Read 5 "a" (Resolved (Str "unread"))
          (run chrome between (mark_called chrome Read 3 (ItemId "a") st))))
  = false /\
  readItems
    (mark_settled chrome Read 5 "a" (Resolved (Str "unread"))
       (run chrome between (mark_called chrome Unread 3 (ItemId "a") st)))
  = readItems (run chrome between (mark_called chrome Unread 3 (ItemId "a") st)) /\
  mark_settled chrome Read 5 "a" (Resolved (Str "read")) a_read = a_read.
Proof.
  intros st between.
  assert (Forall (fun e => event_item e <> resolve (ItemId "a")) between) as Hb.
  { repeat constructor. discriminate. }
  split; [|split].
  - destruct (late_settlement_compares_own_request chrome Read Read (ItemId "a")
                3 5 (Resolved (Str "unread")) between st a_read Hb)
      as (_ & Hfinal & _).
    exact Hfinal.
  - destruct (late_settlement_compares_own_request chrome Read Unread (ItemId "a")
                3 5 (Resolved (Str "unread")) between st a_read Hb)
      as (_ & _ & Hstays & _).
    apply Hstays. discriminate.
  - destruct (late_settlement_compares_own_request chrome Read Read (ItemId "a")
                3 5 (Resolved (Str "read")) between st a_read Hb)
      as (_ & _ & _ & Hsame & _).
    apply (Hsame (Str "read")); reflexivity.
Defined.

Lemma stamp_sets_throttle_witness :
  let st' := with_localStorage {[ SYNC_TIMESTAMP_KEY := Number_toString 1000 ]}
               new_store in
  shouldSync chrome 1801000 st' = false /\ shouldSync chrome 1801001 st' = true.
Proof.
  intros st'.
  destruct (stamp_sets_throttle chrome 1000 new_store st' chrome_browser)
    as (Hexact & _).
  { vm_compute. reflexivity. }
  split; rewrite Hexact; reflexivity.
Defined.
